(** * MonteCarloTreeSearch: the game contract, the TicTacToe example,
      rollout dispatch and the Python glue, embedded and verified.

    Layout
    - [Memory]: the monad the C++ methods run in: a world threaded
      through the calls, and the faults that stop an execution.
    - [TicTacToe]: [examples/TicTacToe/TicTacToe.cpp], over a heap of
      states with [new] and [delete].
    - [Rollout]: [RolloutJob::run] of [mcts/include/mcts.h].
    - [Selection]: [MCTS_node::select_best_child].
    - [Contract]: which turn operation each state class declares.
    - [PyWrappers]: [pybind/py_wrappers.cpp].
    The definitions come first; the modules named [...Facts] hold the
    proofs. *)

From Stdlib Require Import ZArith QArith Reals Lra Ascii String List Bool Lia.
From Stdlib Require Import Decimal DecimalString DecimalZ.
From Stdlib Require Lqa.
From stdpp Require Import gmap.
Import ListNotations.
Local Open Scope Z_scope.

(* ===================================================================== *)
(** ** Memory: objects on the heap, and the monad of a C++ method body   *)
(* ===================================================================== *)

Module Memory.

(** What stops a C++ execution instead of producing a value. *)
Inductive fault : Type :=
| NullDeref        (* a method called through a null pointer *)
| Dangling         (* a pointer to an object that was deleted *)
| OutOfBounds      (* indexing outside an array or a deque *)
| BadDistribution  (* uniform_int_distribution(a, b) with b < a *)
| OutOfFuel.       (* the loop bound of the model was too small *)

Inductive outcome (A : Type) : Type :=
| Ok (a : A)
| Fault (f : fault).
Arguments Ok {A} a.
Arguments Fault {A} f.

Section Monad.
(** [W] is everything a method can touch besides its arguments. *)
Context {W : Type}.

Definition M (A : Type) : Type := W -> outcome (A * W).

Definition ret {A} (a : A) : M A := fun w => Ok (a, w).

Definition bind {A B} (c : M A) (k : A -> M B) : M B :=
  fun w => match c w with
           | Ok (a, w') => k a w'
           | Fault f => Fault f
           end.

Definition fail {A} (f : fault) : M A := fun _ => Fault f.

Definition gets {A} (f : W -> A) : M A := fun w => Ok (f w, w).
End Monad.
Arguments M : clear implicits.

Declare Scope cxx_scope.
Delimit Scope cxx_scope with cxx.
Notation "x <- c ;; k" := (bind c (fun x => k))
  (at level 90, c at level 89, right associativity) : cxx_scope.
Notation "c ;;; k" := (bind c (fun _ => k))
  (at level 90, right associativity) : cxx_scope.

End Memory.
Import Memory.
Local Open Scope cxx_scope.

(* ===================================================================== *)
(** ** TicTacToe                                                         *)
(* ===================================================================== *)

Module TicTacToe.

(** [char board[3][3]]: nine cells, row major. *)
Record Board : Type := mkBoard {
  b00 : ascii; b01 : ascii; b02 : ascii;
  b10 : ascii; b11 : ascii; b12 : ascii;
  b20 : ascii; b21 : ascii; b22 : ascii
}.

(** [board[x][y]] for indices inside the array.  Outside it the C++
    expression has no defined meaning; [next_state], the only method that
    indexes with caller-supplied values, raises [OutOfBounds] before it
    would read here, so the last line is never relied upon. *)
Definition get (b : Board) (x y : Z) : ascii :=
  match x, y with
  | 0, 0 => b00 b | 0, 1 => b01 b | 0, 2 => b02 b
  | 1, 0 => b10 b | 1, 1 => b11 b | 1, 2 => b12 b
  | 2, 0 => b20 b | 2, 1 => b21 b | 2, 2 => b22 b
  | _, _ => " "%char
  end.

(** [board[x][y] = c]. *)
Definition set (b : Board) (x y : Z) (c : ascii) : Board :=
  match x, y with
  | 0, 0 => mkBoard c (b01 b) (b02 b) (b10 b) (b11 b) (b12 b) (b20 b) (b21 b) (b22 b)
  | 0, 1 => mkBoard (b00 b) c (b02 b) (b10 b) (b11 b) (b12 b) (b20 b) (b21 b) (b22 b)
  | 0, 2 => mkBoard (b00 b) (b01 b) c (b10 b) (b11 b) (b12 b) (b20 b) (b21 b) (b22 b)
  | 1, 0 => mkBoard (b00 b) (b01 b) (b02 b) c (b11 b) (b12 b) (b20 b) (b21 b) (b22 b)
  | 1, 1 => mkBoard (b00 b) (b01 b) (b02 b) (b10 b) c (b12 b) (b20 b) (b21 b) (b22 b)
  | 1, 2 => mkBoard (b00 b) (b01 b) (b02 b) (b10 b) (b11 b) c (b20 b) (b21 b) (b22 b)
  | 2, 0 => mkBoard (b00 b) (b01 b) (b02 b) (b10 b) (b11 b) (b12 b) c (b21 b) (b22 b)
  | 2, 1 => mkBoard (b00 b) (b01 b) (b02 b) (b10 b) (b11 b) (b12 b) (b20 b) c (b22 b)
  | 2, 2 => mkBoard (b00 b) (b01 b) (b02 b) (b10 b) (b11 b) (b12 b) (b20 b) (b21 b) c
  | _, _ => b
  end.

(** The fields of [class TicTacToe_state]. *)
Record TicTacToe_state : Type := mkState {
  board : Board;
  turn : ascii;
  winner : ascii
}.

(** [struct TicTacToe_move { int x, y; char player; }]. *)
Record TicTacToe_move : Type := mkMove {
  x : Z;
  y : Z;
  player : ascii
}.

Definition ceq (a b : ascii) : bool := Ascii.eqb a b.

(** The loop header [for (int i = 0 ; i < 9 ; i++)]. *)
Definition cells : list Z := [0; 1; 2; 3; 4; 5; 6; 7; 8].

(** [board[i / 3][i % 3]]; C++ integer division truncates. *)
Definition cell (b : Board) (i : Z) : ascii := get b (Z.quot i 3) (Z.rem i 3).

(** [TicTacToe_state::player_won]; the warning on [cerr] is not modelled. *)
Definition player_won (b : Board) (p : ascii) : bool :=
  existsb (fun i =>
             (ceq (get b i 0) p && ceq (get b i 1) p && ceq (get b i 2) p)
             || (ceq (get b 0 i) p && ceq (get b 1 i) p && ceq (get b 2 i) p))
          [0; 1; 2]
  || (ceq (get b 0 0) p && ceq (get b 1 1) p && ceq (get b 2 2) p)
  || (ceq (get b 0 2) p && ceq (get b 1 1) p && ceq (get b 2 0) p).

(** [TicTacToe_state::calculate_winner]. *)
Definition calculate_winner (b : Board) : ascii :=
  if player_won b "x" then "x"%char
  else if player_won b "o" then "o"%char
  else
    let all_taken := forallb (fun i => negb (ceq (cell b i) " ")) cells in
    if all_taken then "d"%char else " "%char.

(** [TicTacToe_state::is_terminal]. *)
Definition is_terminal (s : TicTacToe_state) : bool := negb (ceq (winner s) " ").

Definition get_turn (s : TicTacToe_state) : ascii := turn s.
Definition get_winner (s : TicTacToe_state) : ascii := winner s.

(** [TicTacToe_state::change_turn], as the new value of the object. *)
Definition change_turn (s : TicTacToe_state) : TicTacToe_state :=
  mkState (board s) (if ceq (turn s) "x" then "o"%char else "x"%char) (winner s).

(** The default constructor: an empty board, 'x' to move. *)
Definition empty_board : Board :=
  mkBoard " " " " " " " " " " " " " " " " " ".

Definition TicTacToe_state_new : TicTacToe_state :=
  mkState empty_board "x" (calculate_winner empty_board).

(** [TicTacToe_state::actions_to_try]: one move per empty cell, pushed at
    the back of the queue in loop order (front of the queue = head). *)
Definition actions_to_try (s : TicTacToe_state) : list TicTacToe_move :=
  fold_left (fun Q i =>
               if ceq (cell (board s) i) " "
               then Q ++ [mkMove (Z.quot i 3) (Z.rem i 3) (turn s)]
               else Q)
            cells [].

(** The result expression shared by both rollouts:
    [(winner == 'x') ? 1.0 : (winner == 'd') ? 0.5 : 0.0]. *)
Definition result_of (s : TicTacToe_state) : Q :=
  if ceq (winner s) "x" then 1%Q
  else if ceq (winner s) "d" then (1 # 2)%Q
  else 0%Q.

(** *** Objects, pointers and generators *)

(** A [TicTacToe_state*]. *)
Inductive ptr : Type :=
| NULL
| Addr (a : nat).

(** What a method running on one thread can reach: the states that are
    currently allocated, and the two [static thread_local std::mt19937]
    generators the simulations draw from ([rollout] has one,
    [find_best_heuristic_move] another).  A generator is given by the raw
    numbers it is going to produce; the theorems quantify over them, so
    they hold whatever the Mersenne twister does. *)
Record World : Type := mkWorld {
  mem : gmap nat TicTacToe_state;
  gen_rollout : list nat;
  gen_best : list nat
}.

Definition with_mem (w : World) (h : gmap nat TicTacToe_state) : World :=
  mkWorld h (gen_rollout w) (gen_best w).

(** [*p], or a method call through [p]. *)
Definition deref (p : ptr) : M World TicTacToe_state :=
  fun w =>
    match p with
    | NULL => Fault NullDeref
    | Addr a =>
        match mem w !! a with
        | Some s => Ok (s, w)
        | None => Fault Dangling
        end
    end.

(** [new TicTacToe_state(s)]: the copy constructor at a fresh address. *)
Definition new (s : TicTacToe_state) : M World ptr :=
  fun w =>
    let a := fresh (dom (mem w)) in
    Ok (Addr a, with_mem w (<[a := s]> (mem w))).

(** Writing the fields of the object at [p]. *)
Definition assign (p : ptr) (s : TicTacToe_state) : M World unit :=
  fun w =>
    match p with
    | NULL => Fault NullDeref
    | Addr a =>
        match mem w !! a with
        | Some _ => Ok (tt, with_mem w (<[a := s]> (mem w)))
        | None => Fault Dangling
        end
    end.

(** [delete p]; deleting the null pointer does nothing. *)
Definition delete_ (p : ptr) : M World unit :=
  fun w =>
    match p with
    | NULL => Ok (tt, w)
    | Addr a =>
        match mem w !! a with
        | Some _ => Ok (tt, with_mem w (delete a (mem w)))
        | None => Fault Dangling
        end
    end.

(** One value of [std::uniform_int_distribution<>(0, n - 1)]: the next
    raw number of the generator, brought into the closed range. *)
Definition draw (g : list nat) (n : nat) : nat * list nat :=
  match g with
  | [] => (0%nat, [])
  | r :: g' => ((r mod n)%nat, g')
  end.

Definition dis_rollout (n : nat) : M World nat :=
  fun w =>
    if (n =? 0)%nat then Fault BadDistribution
    else let (r, g) := draw (gen_rollout w) n in
         Ok (r, mkWorld (mem w) g (gen_best w)).

Definition dis_best (n : nat) : M World nat :=
  fun w =>
    if (n =? 0)%nat then Fault BadDistribution
    else let (r, g) := draw (gen_best w) n in
         Ok (r, mkWorld (mem w) (gen_rollout w) g).

(** *** next_state *)

(** Both indices inside [char board[3][3]]. *)
Definition in_board (m : TicTacToe_move) : bool :=
  (0 <=? x m) && (x m <? 3) && (0 <=? y m) && (y m <? 3).

(** The three statements of the taken branch of [next_state], on the
    freshly copied object: play the move, recompute the winner, change
    the turn. *)
Definition play (s : TicTacToe_state) (m : TicTacToe_move) : TicTacToe_state :=
  let b := set (board s) (x m) (y m) (player m) in
  change_turn (mkState b (turn s) (calculate_winner b)).

(** [TicTacToe_state::next_state].  The copy made for an illegal move is
    not deleted before [NULL] is returned, and stays allocated. *)
Definition next_state (this : ptr) (m : TicTacToe_move) : M World ptr :=
  s <- deref this ;;
  new_state <- new s ;;
  if in_board m then
    ns <- deref new_state ;;
    if ceq (get (board ns) (x m) (y m)) " " then
      (assign new_state (play ns m) ;;; ret new_state)
    else ret NULL
  else fail OutOfBounds.

(** A const method that only reads the receiver, called through [this]. *)
Definition call {A} (method : TicTacToe_state -> A) (this : ptr) : M World A :=
  s <- deref this ;; ret (method s).

(** *** rollout *)

(** The [deque<int> available] both simulations start from: the empty
    cells, each pushed at the front. *)
Definition available_of (s : TicTacToe_state) : list Z :=
  fold_left (fun av i => if ceq (cell (board s) i) " " then i :: av else av)
            cells [].

Definition move_at (a : Z) (p : ascii) : TicTacToe_move :=
  mkMove (Z.quot a 3) (Z.rem a 3) p.

(** The [do ... while (!curstate->is_terminal())] of [rollout].  One turn
    of the loop removes one element of [available], so a bound of
    [length available + 1] turns is never reached. *)
Fixpoint rollout_loop (fuel : nat) (available : list Z) (curstate : ptr)
         (first : bool) : M World Q :=
  match fuel with
  | O => fail OutOfFuel
  | S fuel' =>
      match available with
      | [] => ret 0%Q          (* "Ran out of available moves" *)
      | _ :: _ =>
          r <- dis_rollout (length available) ;;
          match available !! r with
          | None => fail OutOfBounds
          | Some a =>
              cur <- deref curstate ;;
              let move := move_at a (turn cur) in
              let available' := delete r available in
              let old := curstate in
              nxt <- next_state curstate move ;;
              (if first then ret tt else delete_ old) ;;;
              t <- call is_terminal nxt ;;
              if negb t then rollout_loop fuel' available' nxt false
              else
                res <- call result_of nxt ;;
                delete_ nxt ;;;
                ret res
          end
      end
  end.

(** [TicTacToe_state::rollout]. *)
Definition rollout (this : ptr) : M World Q :=
  s <- deref this ;;
  if is_terminal s then ret (result_of s)
  else
    let available := available_of s in
    rollout_loop (S (length available)) available this true.

(** *** heuristic_rollout *)

(** The first two loops of [find_best_heuristic_move]: try each available
    position for the player [who] evaluates to, and return the first one
    that makes that player the winner. *)
Fixpoint winning_position (state : ptr) (who : M World ascii) (positions : list Z)
  : M World (option Z) :=
  match positions with
  | [] => ret None
  | pos :: rest =>
      p <- who ;;
      test_state <- next_state state (move_at pos p) ;;
      w <- call winner test_state ;;
      p' <- who ;;
      if ceq w p' then (delete_ test_state ;;; ret (Some pos))
      else (delete_ test_state ;;; winning_position state who rest)
  end.

Definition corners : list Z := [0; 2; 6; 8].

Definition mem_pos (pos : Z) (available : list Z) : bool :=
  existsb (Z.eqb pos) available.

(** [TicTacToe_state::find_best_heuristic_move]. *)
Definition find_best_heuristic_move (state : ptr) (available : list Z) : M World Z :=
  win <- winning_position state (call turn state) available ;;
  match win with
  | Some pos => ret pos
  | None =>
      t <- call turn state ;;
      let opponent := if ceq t "x" then "o"%char else "x"%char in
      block <- winning_position state (ret opponent) available ;;
      match block with
      | Some pos => ret pos
      | None =>
          if mem_pos 4 available then ret 4
          else
            match find (fun corner => mem_pos corner available) corners with
            | Some corner => ret corner
            | None =>
                r <- dis_best (length available) ;;
                match available !! r with
                | Some a => ret a
                | None => fail OutOfBounds
                end
            end
      end
  end.

(** The loop "Remove chosen move from available": the first occurrence. *)
Fixpoint erase_first (best_move : Z) (available : list Z) : list Z :=
  match available with
  | [] => []
  | a :: rest => if a =? best_move then rest else a :: erase_first best_move rest
  end.

(** The [do ... while] of [heuristic_rollout]. *)
Fixpoint heuristic_loop (fuel : nat) (available : list Z) (curstate : ptr)
         (first : bool) : M World Q :=
  match fuel with
  | O => fail OutOfFuel
  | S fuel' =>
      match available with
      | [] => ret 0%Q
      | _ :: _ =>
          best_move <- find_best_heuristic_move curstate available ;;
          let available' := erase_first best_move available in
          t <- call turn curstate ;;
          let move := move_at best_move t in
          let old := curstate in
          nxt <- next_state curstate move ;;
          (if first then ret tt else delete_ old) ;;;
          term <- call is_terminal nxt ;;
          if negb term then heuristic_loop fuel' available' nxt false
          else
            res <- call result_of nxt ;;
            delete_ nxt ;;;
            ret res
      end
  end.

(** [TicTacToe_state::heuristic_rollout]. *)
Definition heuristic_rollout (this : ptr) : M World Q :=
  s <- deref this ;;
  if is_terminal s then ret (result_of s)
  else
    let available := available_of s in
    heuristic_loop (S (length available)) available this true.

(** *** States the constructors can produce *)

(** Every state comes from the default constructor, the copy constructor
    or [next_state]: its [winner] field is the one computed from its board
    and its [turn] is one of the two players. *)
Definition wf (s : TicTacToe_state) : Prop :=
  winner s = calculate_winner (board s) /\ (turn s = "x"%char \/ turn s = "o"%char).

(** A playout: a sequence of moves, each by the player to move on a cell
    that is empty, from a state that is not yet terminal. *)
Inductive playout : TicTacToe_state -> TicTacToe_state -> Prop :=
| playout_stop s : playout s s
| playout_move s a t :
    is_terminal s = false ->
    In a cells ->
    cell (board s) a = " "%char ->
    playout (play s (move_at a (turn s))) t ->
    playout s t.

(** [available] lists exactly the empty cells of [s], each once. *)
Definition lists_empty_cells (s : TicTacToe_state) (available : list Z) : Prop :=
  List.NoDup available /\
  forall a, In a available <-> In a cells /\ cell (board s) a = " "%char.

(** Where a simulation loop stands in memory.  [h0] is the memory [rollout] was
    entered with.  In the first turn [curstate] is [this], an object of
    [h0]; afterwards it is the one object allocated on top of [h0]. *)
Definition heap_at (h0 : gmap nat TicTacToe_state) (first : bool) (a : nat)
           (cur : TicTacToe_state) (h : gmap nat TicTacToe_state) : Prop :=
  if first then h = h0 /\ h0 !! a = Some cur
  else h = <[a := cur]> h0 /\ h0 !! a = None.

(** What a simulation entered on the state [s] in the world [w] may
    return: the value [v] and the world [w'] it leaves. *)
Definition simulation_result (s : TicTacToe_state) (w : World) (v : Q) (w' : World)
  : Prop :=
  (v = 0%Q \/ v = (1 # 2)%Q \/ v = 1%Q) /\
  (0 <= v <= 1)%Q /\
  (is_terminal s = true ->
   w' = w /\
   (winner s = "x"%char -> v = 1%Q) /\
   (winner s = "d"%char -> v = (1 # 2)%Q) /\
   (winner s <> "x"%char -> winner s <> "d"%char -> v = 0%Q)) /\
  (is_terminal s = false ->
   exists t, playout s t /\ is_terminal t = true /\ v = result_of t).

(** *** Example states *)

(** A world holding one new game at address 0. *)
Definition world0 : World := mkWorld {[ 0%nat := TicTacToe_state_new ]} [] [].

(** x completes the top row with her third move:
<<
     x | x | x
     o | o |
       |   |
>> *)
Definition top_row_moves : list TicTacToe_move :=
  [mkMove 0 0 "x"; mkMove 1 0 "o"; mkMove 0 1 "x"; mkMove 1 1 "o"; mkMove 0 2 "x"].

Definition top_row_won : TicTacToe_state :=
  mkState (mkBoard "x" "x" "x" "o" "o" " " " " " " " ") "o" "x".

(** Applying moves one after the other through [next_state], and reading
    the state reached. *)
Fixpoint play_all (p : ptr) (moves : list TicTacToe_move) : M World TicTacToe_state :=
  match moves with
  | [] => deref p
  | m :: rest => q <- next_state p m ;; play_all q rest
  end.

(** A new game whose [rollout] generator is about to produce the given
    numbers. *)
Definition world_with (g : list nat) : World :=
  mkWorld {[ 0%nat := TicTacToe_state_new ]} g [].

Definition value_of {A} (r : outcome (A * World)) : option A :=
  match r with
  | Ok (a, _) => Some a
  | Fault _ => None
  end.


(** *** The rest of the class: evaluation of moves and positions *)

(** [TicTacToe_move::operator==] (the cast of [other] to a
    [TicTacToe_move] is taken for granted, as the code does). *)
Definition TicTacToe_move_eq (m o : TicTacToe_move) : bool :=
  (x m =? x o) && (y m =? y o) && ceq (player m) (player o).

(** The values [evaluate_move] returns; a decimal literal stands for the
    double nearest to it. *)
Definition winning_move_value : Q := 1%Q.
Definition blocking_move_value : Q := (8 # 10)%Q.
Definition centre_value : Q := (6 # 10)%Q.
Definition corner_value : Q := (4 # 10)%Q.
Definition edge_value : Q := (2 # 10)%Q.

(** "Positional preferences", the last three lines of [evaluate_move]. *)
Definition positional_value (pos : Z) : Q :=
  if pos =? 4 then centre_value
  else if (pos =? 0) || (pos =? 2) || (pos =? 6) || (pos =? 8) then corner_value
  else edge_value.

(** [TicTacToe_state::evaluate_move].  Neither result of [next_state] is
    tested for null before its [winner] is read. *)
Definition evaluate_move (this : ptr) (move : TicTacToe_move) : M World Q :=
  let pos := x move * 3 + y move in
  test_state <- next_state this move ;;
  w <- call winner test_state ;;
  t <- call turn this ;;
  if ceq w t then (delete_ test_state ;;; ret winning_move_value)
  else
    delete_ test_state ;;;
    t <- call turn this ;;
    let opponent := if ceq t "x" then "o"%char else "x"%char in
    let opponent_move := mkMove (x move) (y move) opponent in
    opponent_test <- next_state this opponent_move ;;
    w' <- call winner opponent_test ;;
    if ceq w' opponent then (delete_ opponent_test ;;; ret blocking_move_value)
    else (delete_ opponent_test ;;; ret (positional_value pos)).

(** One [if (pos == player) ... else if (pos == opponent) ...] of
    [can_win_line], on the pair (player_count, opponent_count). *)
Definition tally (pos player opponent : ascii) (counts : nat * nat) : nat * nat :=
  if ceq pos player then (S (fst counts), snd counts)
  else if ceq pos opponent then (fst counts, S (snd counts))
  else counts.

(** [TicTacToe_state::can_win_line]. *)
Definition can_win_line (pos1 pos2 pos3 player : ascii) : bool :=
  let opponent := if ceq player "x" then "o"%char else "x"%char in
  let counts := tally pos3 player opponent
                  (tally pos2 player opponent
                     (tally pos1 player opponent (0%nat, 0%nat))) in
  (snd counts =? 0)%nat.

(** [TicTacToe_state::count_winning_lines]; the count is a whole number,
    kept in a double by the code. *)
Definition count_winning_lines (b : Board) (player : ascii) : nat :=
  let rows :=
    fold_left (fun count i =>
                 if can_win_line (get b i 0) (get b i 1) (get b i 2) player
                 then S count else count) [0; 1; 2] 0%nat in
  let columns :=
    fold_left (fun count j =>
                 if can_win_line (get b 0 j) (get b 1 j) (get b 2 j) player
                 then S count else count) [0; 1; 2] rows in
  let diagonal :=
    if can_win_line (get b 0 0) (get b 1 1) (get b 2 2) player
    then S columns else columns in
  if can_win_line (get b 0 2) (get b 1 1) (get b 2 0) player
  then S diagonal else diagonal.

(** [TicTacToe_state::evaluate_position]; the quotient of the two counts
    is taken over the rationals, of which the double is the rounding. *)
Definition evaluate_position (s : TicTacToe_state) : Q :=
  if is_terminal s then
    if ceq (winner s) "x" then 1%Q
    else if ceq (winner s) "o" then 0%Q
    else (1 # 2)%Q
  else
    let x_score := count_winning_lines (board s) "x" in
    let o_score := count_winning_lines (board s) "o" in
    let total := (x_score + o_score)%nat in
    if (total =? 0)%nat then (1 # 2)%Q
    else (inject_Z (Z.of_nat x_score) / inject_Z (Z.of_nat total))%Q.

(** The same position with the two players exchanged. *)
Definition swap_piece (c : ascii) : ascii :=
  if ceq c "x" then "o"%char else if ceq c "o" then "x"%char else c.

Definition swap_board (b : Board) : Board :=
  mkBoard (swap_piece (b00 b)) (swap_piece (b01 b)) (swap_piece (b02 b))
          (swap_piece (b10 b)) (swap_piece (b11 b)) (swap_piece (b12 b))
          (swap_piece (b20 b)) (swap_piece (b21 b)) (swap_piece (b22 b)).

Definition swap_players (s : TicTacToe_state) : TicTacToe_state :=
  mkState (swap_board (board s)) (swap_piece (turn s)) (swap_piece (winner s)).

(** How many cells hold the piece [p]. *)
Definition pieces (b : Board) (p : ascii) : nat :=
  length (List.filter (fun i => ceq (cell b i) p) cells).

(** The two players have moved in turns, 'x' first: there are as many
    pieces of 'o' as of 'x' when 'x' is to move, and one less when 'o'
    is. *)
Definition in_turns (s : TicTacToe_state) : Prop :=
  (turn s = "x"%char /\ pieces (board s) "x" = pieces (board s) "o") \/
  (turn s = "o"%char /\ pieces (board s) "x" = S (pieces (board s) "o")).


(** *** What find_best_heuristic_move looks for *)

(** Playing on [pos] makes [p] the winner. *)
Definition wins_at (s : TicTacToe_state) (p : ascii) (pos : Z) : bool :=
  ceq (winner (play s (move_at pos p))) p.

Definition opponent_of (s : TicTacToe_state) : ascii :=
  if ceq (turn s) "x" then "o"%char else "x"%char.


(** x to move, and the cell 2 completes her top row:
<<
     x | x |
     o | o |
       |   |
>> *)
Definition x_to_win : TicTacToe_state :=
  mkState (mkBoard "x" "x" " " "o" "o" " " " " " " " ") "x" " ".

(** A world holding the one state [s], at address 0. *)
Definition world_of (s : TicTacToe_state) : World := mkWorld {[ 0%nat := s ]} [] [].


(** *** Printing a move *)

(** [std::to_string] of an [int]: the decimal digits, after a minus sign
    for a negative number. *)
Definition to_string (z : Z) : string := NilZero.string_of_int (Z.to_int z).

(** [TicTacToe_move::sprint]: "(x,y,player)". *)
Definition sprint (m : TicTacToe_move) : string :=
  ("(" ++ to_string (x m) ++ "," ++ to_string (y m) ++ "," ++ String (player m) ")")%string.


(** The text contains a comma. *)
Fixpoint has_comma (s : string) : bool :=
  match s with
  | EmptyString => false
  | String c rest => ceq c "," || has_comma rest
  end.


(** The value [evaluate_move] gives to a move of the player to move on
    the cell [pos]. *)
Definition move_value (s : TicTacToe_state) (pos : Z) : Q :=
  if wins_at s (turn s) pos then winning_move_value
  else if wins_at s (opponent_of s) pos then blocking_move_value
  else positional_value pos.


(** One 'x' on the centre, 'o' to move. *)
Definition x_on_centre : TicTacToe_state :=
  mkState (mkBoard " " " " " " " " "x" " " " " " " " ") "o" " ".

End TicTacToe.

(* ===================================================================== *)
(** ** Rollout: RolloutJob::run of mcts/include/mcts.h                   *)
(* ===================================================================== *)

Module Rollout.

(** [enum class RolloutStrategy]. *)
Inductive RolloutStrategy : Type :=
| RANDOM
| HEURISTIC
| MIXED
| HEAVY.

(** The worker thread a job runs on.  C++ leaves it implicit; it decides
    which copy of a [thread_local] variable a method sees. *)
Definition thread : Type := nat.

(** The part of [class MCTS_state] a job calls: the two virtual
    simulation methods.  [W] is what the methods of the game can reach. *)
Class MCTS_state (State W : Type) : Type := {
  rollout : thread -> State -> M W Q;
  heuristic_rollout : thread -> State -> M W Q
}.

(** [a < b] on the values the comparison of [run] meets. *)
Definition Qlt_bool (a b : Q) : bool := negb (Qle_bool b a).

Section RolloutJob.

Context {State W : Type} `{MCTS_state State W}.

(** The macro [RAND_MAX] of the C library: at least 32767, otherwise left
    to the implementation. *)
Variable RAND_MAX : Z.

(** What a job can reach beyond the game: the generator behind [rand()],
    of which a process has exactly one (as POSIX and the GNU C library
    have it), given by the numbers it is going to produce; and the static
    [MCTS_node::heuristic_ratio]. *)
Record Process : Type := mkProcess {
  c_rand : list Z;
  heuristic_ratio : Q;
  user : W
}.

(** [rand()]: the next number of the generator, within [0, RAND_MAX]. *)
Definition rand : M Process Z :=
  fun p =>
    match c_rand p with
    | [] => Ok (0, p)
    | r :: g => Ok (r mod (RAND_MAX + 1), mkProcess g (heuristic_ratio p) (user p))
    end.

(** [MCTS_node::get_heuristic_ratio()]. *)
Definition get_heuristic_ratio : M Process Q := gets heuristic_ratio.

(** A method of the game, run inside the process. *)
Definition in_user {A} (c : M W A) : M Process A :=
  fun p =>
    match c (user p) with
    | Ok (a, u) => Ok (a, mkProcess (c_rand p) (heuristic_ratio p) u)
    | Fault f => Fault f
    end.

(** [RolloutJob::run] on the thread [t], for a job made of [state] and
    [strategy]; the value is what is stored into [*score].  The quotient
    [static_cast<double>(rand()) / RAND_MAX] is taken over the rationals:
    both operands are integers a double holds exactly and the division
    rounds correctly, so against the ratios 0, 1/2 and 1 the comparison
    comes out the same, as it does when [rand()] returns 0 or [RAND_MAX]
    and when the ratio lies outside [0, 1]; a ratio within one rounding of
    the quotient can come out differently. *)
Definition run (t : thread) (state : State) (strategy : RolloutStrategy) : M Process Q :=
  match strategy with
  | HEURISTIC => in_user (heuristic_rollout t state)
  | MIXED =>
      r <- rand ;;
      ratio <- get_heuristic_ratio ;;
      if Qlt_bool (inject_Z r / inject_Z RAND_MAX) ratio
      then in_user (heuristic_rollout t state)
      else in_user (rollout t state)
  | HEAVY => in_user (heuristic_rollout t state)
  | RANDOM => in_user (rollout t state)
  end.

End RolloutJob.

Arguments Process : clear implicits.
Arguments mkProcess {W} c_rand heuristic_ratio user.

(** The process once [rand()] has been called. *)
Definition drawn {W} (p : Process W) : Process W :=
  mkProcess (tail (c_rand p)) (heuristic_ratio p) (user p).

(** *** TicTacToe states under a pool of workers *)

(** One memory for all threads; for each thread its own two generators of
    the TicTacToe simulations ([static thread_local]). *)
Record Pool : Type := mkPool {
  heap : gmap nat TicTacToe.TicTacToe_state;
  gens : gmap thread (list nat * list nat)
}.

Definition gens_of (pl : Pool) (t : thread) : list nat * list nat :=
  default ([], []) (gens pl !! t).

(** A TicTacToe method executed by the thread [t]. *)
Definition on_thread {A} (t : thread) (c : M TicTacToe.World A) : M Pool A :=
  fun pl =>
    match c (TicTacToe.mkWorld (heap pl) (fst (gens_of pl t)) (snd (gens_of pl t))) with
    | Ok (a, w) =>
        Ok (a, mkPool (TicTacToe.mem w)
                      (<[t := (TicTacToe.gen_rollout w, TicTacToe.gen_best w)]> (gens pl)))
    | Fault f => Fault f
    end.

(** [class TicTacToe_state : public MCTS_state]. *)
#[export] Instance TicTacToe_state : MCTS_state TicTacToe.ptr Pool := {|
  rollout := fun t this => on_thread t (TicTacToe.rollout this);
  heuristic_rollout := fun t this => on_thread t (TicTacToe.heuristic_rollout this)
|}.

(** [RAND_MAX] of the GNU C library. *)
Definition glibc_RAND_MAX : Z := 2147483647.

(** A new game at address 0, no thread has drawn yet. *)
Definition pool0 : Pool := mkPool {[ 0%nat := TicTacToe.TicTacToe_state_new ]} ∅.

(** Ratio 1, and [rand()] about to return [RAND_MAX]. *)
Definition at_RAND_MAX : Process Pool :=
  mkProcess [glibc_RAND_MAX] 1%Q pool0.

(** Ratio 1/2, and [rand()] about to return 0 and then [RAND_MAX]. *)
Definition two_draws : Process Pool :=
  mkProcess [0; glibc_RAND_MAX] (1 # 2)%Q pool0.

Definition value_of {A W} (r : outcome (A * W)) : option A :=
  match r with
  | Ok (a, _) => Some a
  | Fault _ => None
  end.


(** *** The defaults of the base class *)

(** A state class that implements [rollout] and leaves
    [heuristic_rollout] as [class MCTS_state] defines it:
    [virtual double heuristic_rollout() const { return rollout(); }]. *)
Definition MCTS_state_default {State W : Type} (rollout : thread -> State -> M W Q)
  : MCTS_state State W :=
  {| rollout := rollout;
     heuristic_rollout := fun t state => rollout t state |}.

(** The defaults of [evaluate_move] and [evaluate_position]. *)
Definition default_evaluate_move : Q := 0%Q.
Definition default_evaluate_position : Q := (1 # 2)%Q.

(** A ratio above 1, and [rand()] about to return [RAND_MAX]. *)
Definition above_one : Process Pool := mkProcess [glibc_RAND_MAX] 2%Q pool0.

End Rollout.

(* ===================================================================== *)
(** ** Selection: MCTS_node::select_best_child                           *)
(* ===================================================================== *)

Module Selection.

(** The statistics of a child that selection reads:
    [number_of_simulations] and [score]. *)
Record child : Type := mkChild {
  visits : nat;
  score : R
}.

Section SelectBestChild.

(** The exploration constant, and what selection reads of the node it is
    called on: its visits, and whether the self side moves at its state. *)
Variable c : R.
Variable self_visits : nat.
Variable self_side_turn : bool.

(** Modelled from the spec: [winrate(child)] of section 4.4, the score
    per visit when the self side moves at the node, else its complement. *)
Definition winrate (ch : child) : R :=
  if self_side_turn then (score ch / INR (visits ch))%R
  else (1 - score ch / INR (visits ch))%R.

(** Modelled from the spec: the UCT score
    [U(child) = winrate(child) + c * sqrt(ln(visits(self)) / visits(child))]. *)
Definition U (ch : child) : R :=
  (winrate ch + c * sqrt (ln (INR self_visits) / INR (visits ch)))%R.

(** Modelled from the spec: the first child, counting from [i], that has
    no visit ("If any child has visits == 0, that child is selected
    immediately (ties by index)"). *)
Fixpoint first_unvisited (children : list child) (i : nat) : option nat :=
  match children with
  | [] => None
  | ch :: rest =>
      if (visits ch =? 0)%nat then Some i else first_unvisited rest (S i)
  end.

(** Modelled from the spec: the child maximizing [U], "ties broken by
    lowest index": [best] is the best index so far and [max] its score; a
    later child takes its place only with a strictly greater score. *)
Fixpoint best_from (children : list child) (i best : nat) (max : R) : nat :=
  match children with
  | [] => best
  | ch :: rest =>
      if Rlt_dec max (U ch) then best_from rest (S i) i (U ch)
      else best_from rest (S i) best max
  end.

(** Modelled from the spec: [MCTS_node::select_best_child(c)], whose body
    (mcts.cpp) is not among the sources; only its declaration in mcts.h
    is.  The result is the index of the selected child in [children];
    there is none when the precondition "at least one child" fails. *)
Definition select_best_child (children : list child) : option nat :=
  match children with
  | [] => None
  | first :: rest =>
      match first_unvisited children 0 with
      | Some i => Some i
      | None => Some (best_from rest 1 0 (U first))
      end
  end.

(** [b] is the earliest child of [seen] with the greatest score [max]. *)
Definition earliest_max (seen : list child) (b : nat) (max : R) : Prop :=
  (exists chb, seen !! b = Some chb /\ U chb = max) /\
  forall k chk, seen !! k = Some chk ->
                (U chk <= max)%R /\ ((k < b)%nat -> (U chk < max)%R).

End SelectBestChild.

(** Three children, the last two never visited. *)
Definition two_unvisited : list child :=
  [mkChild 3 2%R; mkChild 0 0%R; mkChild 0 0%R].

End Selection.

(* ===================================================================== *)
(** ** Contract: the turn operation each state class declares            *)
(* ===================================================================== *)

Module Contract.

(** How a member function is declared. *)
Inductive specifier : Type :=
| pure_virtual     (* virtual ... = 0 *)
| virtual_default  (* virtual, with a body *)
| override         (* ... override *)
| plain.

Record method : Type := mkMethod {
  name : string;
  declared : specifier
}.

Record class_decl : Type := mkClass {
  class_name : string;
  methods : list method
}.

(** [class MCTS_state] of mcts/include/state.h. *)
Definition MCTS_state : class_decl :=
  mkClass "MCTS_state"
    [ mkMethod "actions_to_try" pure_virtual;
      mkMethod "next_state" pure_virtual;
      mkMethod "rollout" pure_virtual;
      mkMethod "is_terminal" pure_virtual;
      mkMethod "print" virtual_default;
      mkMethod "is_self_side_turn" pure_virtual;
      mkMethod "clone" pure_virtual;
      mkMethod "heuristic_rollout" virtual_default;
      mkMethod "evaluate_move" virtual_default;
      mkMethod "evaluate_position" virtual_default ].

(** [class TicTacToe_state : public MCTS_state] of TicTacToe.h. *)
Definition TicTacToe_state : class_decl :=
  mkClass "TicTacToe_state"
    [ mkMethod "player_won" plain;
      mkMethod "calculate_winner" plain;
      mkMethod "change_turn" plain;
      mkMethod "find_best_heuristic_move" plain;
      mkMethod "count_winning_lines" plain;
      mkMethod "can_win_line" plain;
      mkMethod "get_turn" plain;
      mkMethod "get_winner" plain;
      mkMethod "is_terminal" override;
      mkMethod "next_state" override;
      mkMethod "actions_to_try" override;
      mkMethod "rollout" override;
      mkMethod "print" override;
      mkMethod "player1_turn" override;
      mkMethod "heuristic_rollout" override;
      mkMethod "evaluate_move" override;
      mkMethod "evaluate_position" override ].

(** [class PyMCTS_state : public MCTS_state], the trampoline of
    pybind/py_wrappers.h. *)
Definition PyMCTS_state : class_decl :=
  mkClass "PyMCTS_state"
    [ mkMethod "actions_to_try" override;
      mkMethod "next_state" override;
      mkMethod "rollout" override;
      mkMethod "is_terminal" override;
      mkMethod "print" override;
      mkMethod "is_self_side_turn" override;
      mkMethod "clone" override ].

(** [class PyMCTS_state : public MCTS_state] as the second py_wrappers.h
    of the sources declares it (the one with [py::get_override]). *)
Definition PyMCTS_state_get_override : class_decl :=
  mkClass "PyMCTS_state"
    [ mkMethod "actions_to_try" override;
      mkMethod "next_state" override;
      mkMethod "rollout" override;
      mkMethod "is_terminal" override;
      mkMethod "print" override;
      mkMethod "player1_turn" override ].

(** [class SerializedPythonState : public MCTS_state] of
    pybind/py_wrappers.h. *)
Definition SerializedPythonState : class_decl :=
  mkClass "SerializedPythonState"
    [ mkMethod "actions_to_try" override;
      mkMethod "next_state" override;
      mkMethod "rollout" override;
      mkMethod "is_terminal" override;
      mkMethod "print" override;
      mkMethod "is_self_side_turn" override;
      mkMethod "clone" override;
      mkMethod "find_python_move" plain ].

Definition declares (cls : class_decl) (m : string) : bool :=
  existsb (fun d => String.eqb (name d) m) (methods cls).

Definition is_virtual (s : specifier) : bool :=
  match s with
  | pure_virtual | virtual_default => true
  | override | plain => false
  end.

Definition is_pure (s : specifier) : bool :=
  match s with
  | pure_virtual => true
  | _ => false
  end.

Definition is_override (s : specifier) : bool :=
  match s with
  | override => true
  | _ => false
  end.

Definition declares_as (p : specifier -> bool) (cls : class_decl) (m : string) : bool :=
  existsb (fun d => String.eqb (name d) m && p (declared d)) (methods cls).

(** The turn operations among the methods of a class. *)
Definition turn_operations (cls : class_decl) : list string :=
  List.filter (fun m => String.eqb m "is_self_side_turn" || String.eqb m "player1_turn")
              (List.map name (methods cls)).

(** What the compiler asks of [override]: the base declares the method
    virtual. *)
Definition overrides_exist (base cls : class_decl) : bool :=
  forallb (fun d => negb (is_override (declared d))
                    || declares_as is_virtual base (name d))
          (methods cls).

(** No pure virtual method of the base is left without an override: the
    class can be instantiated. *)
Definition concrete (base cls : class_decl) : bool :=
  forallb (fun d => negb (is_pure (declared d))
                    || declares_as is_override cls (name d))
          (methods base).

Definition implements (base cls : class_decl) : bool :=
  overrides_exist base cls && concrete base cls.

End Contract.

(* ===================================================================== *)
(** ** PyWrappers: pybind/py_wrappers.cpp                                *)
(* ===================================================================== *)

Module PyWrappers.

(** *** queue_to_vector and vector_to_queue *)

Section Conversions.

(** [MCTS_move*]: the conversions copy pointers and never look behind
    them. *)
Context {move_ptr : Type}.

(** [std::queue<MCTS_move*>]: the front is the head of the list. *)
Definition queue : Type := list move_ptr.
(** [std::vector<MCTS_move*>]. *)
Definition vector : Type := list move_ptr.

Definition empty (q : queue) : bool :=
  match q with
  | [] => true
  | _ :: _ => false
  end.

Definition front (q : queue) : option move_ptr := head q.
Definition pop (q : queue) : queue := tail q.
Definition push (q : queue) (m : move_ptr) : queue := q ++ [m].
Definition push_back (v : vector) (m : move_ptr) : vector := v ++ [m].

(** [while (!q->empty()) { result.push_back(q->front()); q->pop(); }]:
    each turn pops one element, so the loop is a recursion on the queue. *)
Fixpoint drain (q : queue) (result : vector) : vector :=
  match q with
  | [] => result
  | m :: popped => drain popped (push_back result m)
  end.

(** [queue_to_vector]; the argument is a pointer, [None] the null one. *)
Definition queue_to_vector (q : option queue) : vector :=
  match q with
  | None => []
  | Some q => drain q []
  end.

(** [vector_to_queue]: [new] gives a pointer that is not null. *)
Definition vector_to_queue (vec : vector) : option queue :=
  Some (fold_left push vec []).

End Conversions.

Arguments queue : clear implicits.
Arguments vector : clear implicits.

(** *** SerializedPythonState::next_state *)

(** What a call into the interpreter, or a cast between the two worlds,
    comes back with: a value, or a C++ exception ([error_already_set] and
    [cast_error] both derive from [std::exception]). *)
Inductive py_result (A : Type) : Type :=
| Returned (a : A)
| Thrown (what : string).
Arguments Returned {A} a.
Arguments Thrown {A} what.

Definition py_bind {A B} (c : py_result A) (k : A -> py_result B) : py_result B :=
  match c with
  | Returned a => k a
  | Thrown e => Thrown e
  end.

(** [try { body } catch (const std::exception&) { handler }]. *)
Definition try_catch {A} (body : py_result A) (handler : string -> A) : A :=
  match body with
  | Returned a => a
  | Thrown e => handler e
  end.

Section Serialized.

(** [py::object]. *)
Context {object : Type}.

(** The [const MCTS_move*] handed to [next_state]: what [dynamic_cast]
    finds behind it. *)
Inductive move : Type :=
| null_move
| PythonMoveWrapper (python_move : object)
| other_move (id : nat).

(** The two calls that leave C++: the Python method
    [python_state.next_state(py_move)], and [py::cast] of a move that is
    not a wrapper. *)
Class Interpreter : Type := {
  call_next_state : object -> object -> py_result object;
  cast_move : move -> py_result object
}.
Context `{Interpreter}.

Record SerializedPythonState : Type := mkSerialized {
  python_state : object;
  cached_python_moves : list object
}.

(** The constructor [SerializedPythonState(py::object)]. *)
Definition SerializedPythonState_new (python_state : object) : SerializedPythonState :=
  mkSerialized python_state [].

(** [SerializedPythonState::next_state].  The result is the returned
    pointer, [None] standing for null; every path returns what [new] gave.
    The messages on [cerr] are not modelled. *)
Definition next_state (this : SerializedPythonState) (m : move)
  : option SerializedPythonState :=
  try_catch
    (py_bind (match m with
              | PythonMoveWrapper python_move => Returned python_move
              | _ => cast_move m
              end)
       (fun py_move =>
          py_bind (call_next_state (python_state this) py_move)
            (fun new_py_state =>
               Returned (Some (SerializedPythonState_new new_py_state)))))
    (fun _ => Some (SerializedPythonState_new (python_state this))).

End Serialized.

Arguments move : clear implicits.
Arguments Interpreter : clear implicits.
Arguments SerializedPythonState : clear implicits.

(** An interpreter whose game raises on every call. *)
Definition failing_game : Interpreter nat :=
  {| call_next_state := fun _ _ => Thrown "AttributeError";
     cast_move := fun _ => Thrown "cast_error" |}.


(** *** The other methods of SerializedPythonState *)

Section SerializedMethods.

Context {object : Type} `{Interpreter object}.

(** The remaining calls into the Python state, each with the cast of its
    result: [actions_to_try()] to a [py::list], [rollout()] to a double,
    [is_terminal()] and [is_self_side_turn()] to a bool. *)
Class Callbacks : Type := {
  call_actions_to_try : object -> py_result (list object);
  call_rollout : object -> py_result Q;
  call_is_terminal : object -> py_result bool;
  call_is_self_side_turn : object -> py_result bool
}.
Context `{Callbacks}.

(** [SerializedPythonState::actions_to_try]: the queue it returns, and
    the receiver afterwards, whose [mutable] cache the method rebuilds.
    The call into Python comes before the cache is cleared. *)
Definition actions_to_try (this : SerializedPythonState object)
  : queue (move object) * SerializedPythonState object :=
  try_catch
    (py_bind (call_actions_to_try (python_state this))
       (fun py_moves =>
          let filled :=
            fold_left (fun qc item =>
                         (push (fst qc) (PythonMoveWrapper item), snd qc ++ [item]))
                      py_moves ([], []) in
          Returned (fst filled, mkSerialized (python_state this) (snd filled))))
    (fun _ => ([], this)).

(** [SerializedPythonState::rollout]. *)
Definition rollout (this : SerializedPythonState object) : Q :=
  try_catch (call_rollout (python_state this)) (fun _ => (1 # 2)%Q).

(** [SerializedPythonState::is_terminal]. *)
Definition is_terminal (this : SerializedPythonState object) : bool :=
  try_catch (call_is_terminal (python_state this)) (fun _ => true).


(** [SerializedPythonState::clone]: both paths wrap the same Python
    object again. *)
Definition clone (this : SerializedPythonState object) : SerializedPythonState object :=
  SerializedPythonState_new (python_state this).

(** The binding of [actions_to_try] in PYBIND11_MODULE:
    [queue_to_vector(self.actions_to_try())]. *)
Definition py_actions_to_try (this : SerializedPythonState object) : vector (move object) :=
  queue_to_vector (Some (fst (actions_to_try this))).

End SerializedMethods.

Arguments Callbacks : clear implicits.

(** A game of counters: the state is a number, a move adds to it, and
    nine ends the game. *)
Definition counting_game : Interpreter nat :=
  {| call_next_state := fun state m => Returned (state + m)%nat;
     cast_move := fun _ => Thrown "cast_error" |}.

Definition counting_callbacks : Callbacks nat :=
  {| call_actions_to_try := fun state => Returned [1; 2]%nat;
     call_rollout := fun _ => Returned 1%Q;
     call_is_terminal := fun state => Returned (9 <=? state)%nat;
     call_is_self_side_turn := fun _ => Returned true |}.



(** An interpreter in which every move casts to a Python object and the
    game raises on every call. *)
Definition raising_game : Interpreter nat :=
  {| call_next_state := fun _ _ => Thrown "ValueError";
     cast_move := fun _ => Returned 5%nat |}.

End PyWrappers.

(* ===================================================================== *)
(** ** Memory: proofs                                                    *)
(* ===================================================================== *)

Module MemoryFacts.

(** Running a sequence whose first part is known to succeed. *)
Lemma bind_ok {W A B} (c : M W A) (k : A -> M W B) w a w' :
  c w = Ok (a, w') -> bind c k w = k a w'.
Proof. unfold bind. now intros ->. Qed.

End MemoryFacts.

(* ===================================================================== *)
(** ** TicTacToe: proofs                                                 *)
(* ===================================================================== *)

Module TicTacToeFacts.
Import TicTacToe MemoryFacts.

(** *** Facts about the board *)

Lemma ceq_eq a b : ceq a b = true <-> a = b.
Proof. unfold ceq. apply Ascii.eqb_eq. Qed.

Lemma ceq_neq a b : ceq a b = false <-> a <> b.
Proof. unfold ceq. apply Ascii.eqb_neq. Qed.

Lemma in_cells a : In a cells <-> 0 <= a < 9.
Proof.
  unfold cells. simpl. split.
  - intros H. repeat (destruct H as [H | H]; [lia |]). contradiction.
  - intros H.
    assert (a = 0 \/ a = 1 \/ a = 2 \/ a = 3 \/ a = 4 \/ a = 5 \/ a = 6 \/ a = 7 \/ a = 8)
      as Hc by lia.
    intuition.
Qed.

Ltac each_cell H :=
  apply in_cells in H;
  match type of H with
  | 0 <= ?a < 9 =>
      assert (a = 0 \/ a = 1 \/ a = 2 \/ a = 3 \/ a = 4 \/ a = 5 \/ a = 6 \/ a = 7 \/ a = 8)
        as [-> | [-> | [-> | [-> | [-> | [-> | [-> | [-> | ->]]]]]]]] by lia;
      clear H
  end.

Lemma move_at_in_board a p : In a cells -> in_board (move_at a p) = true.
Proof. intros H. each_cell H; reflexivity. Qed.

Lemma cell_set_same b a c : In a cells -> cell (set b (Z.quot a 3) (Z.rem a 3) c) a = c.
Proof. intros H. each_cell H; reflexivity. Qed.

Lemma cell_set_other b a a' c :
  In a cells -> In a' cells -> a' <> a ->
  cell (set b (Z.quot a 3) (Z.rem a 3) c) a' = cell b a'.
Proof.
  intros H H' Hne. each_cell H; each_cell H'; try reflexivity; exfalso; apply Hne; reflexivity.
Qed.

Lemma get_set_same b i j c :
  in_board (mkMove i j c) = true -> get (set b i j c) i j = c.
Proof.
  unfold in_board. simpl. intros H.
  assert ((i = 0 \/ i = 1 \/ i = 2) /\ (j = 0 \/ j = 1 \/ j = 2)) as [Hi Hj] by lia.
  destruct Hi as [-> | [-> | ->]]; destruct Hj as [-> | [-> | ->]]; reflexivity.
Qed.

Lemma get_set_other b i j c i' j' :
  in_board (mkMove i j c) = true -> (i', j') <> (i, j) ->
  get (set b i j c) i' j' = get b i' j'.
Proof.
  unfold in_board. simpl. intros H Hne.
  assert ((i = 0 \/ i = 1 \/ i = 2) /\ (j = 0 \/ j = 1 \/ j = 2)) as [Hi Hj] by lia.
  destruct Hi as [-> | [-> | ->]]; destruct Hj as [-> | [-> | ->]];
    unfold get, set;
    repeat match goal with
           | |- context [match ?z with 0 => _ | Z.pos _ => _ | Z.neg _ => _ end] =>
               is_var z; destruct z
           | |- context [match ?q with xH => _ | xI _ => _ | xO _ => _ end] =>
               is_var q; destruct q
           end; try reflexivity; exfalso; apply Hne; reflexivity.
Qed.

(** *** The winner field *)

Lemma calculate_winner_cases b :
  calculate_winner b = "x"%char \/ calculate_winner b = "o"%char \/
  calculate_winner b = "d"%char \/ calculate_winner b = " "%char.
Proof.
  unfold calculate_winner.
  destruct (player_won b "x"); [tauto |].
  destruct (player_won b "o"); [tauto |].
  destruct (forallb _ cells); tauto.
Qed.

Lemma undecided_has_empty_cell b :
  calculate_winner b = " "%char -> exists a, In a cells /\ cell b a = " "%char.
Proof.
  unfold calculate_winner.
  destruct (player_won b "x"); [discriminate |].
  destruct (player_won b "o"); [discriminate |].
  destruct (forallb _ cells) eqn:Hall; [discriminate |]. intros _.
  assert (existsb (fun i => ceq (cell b i) " ") cells = true) as Hex.
  { revert Hall. generalize cells. intros l. induction l as [| i l IH]; simpl.
    - discriminate.
    - destruct (ceq (cell b i) " "); simpl; auto. }
  apply existsb_exists in Hex. destruct Hex as [a [Ha Hc]].
  exists a. split; [exact Ha | now apply ceq_eq].
Qed.

Lemma full_board_decided b :
  (forall a, In a cells -> cell b a <> " "%char) -> calculate_winner b <> " "%char.
Proof.
  intros Hfull Hw. destruct (undecided_has_empty_cell b Hw) as [a [Ha Hc]].
  exact (Hfull a Ha Hc).
Qed.

Lemma wf_new : wf TicTacToe_state_new.
Proof. split; [reflexivity | left; reflexivity]. Qed.

Lemma wf_play s m : wf (play s m).
Proof.
  split; [reflexivity |]. unfold play, change_turn. simpl.
  destruct (ceq (turn s) "x"); auto.
Qed.

Lemma wf_turn_not_blank s : wf s -> turn s <> " "%char.
Proof. intros [_ [H | H]]; rewrite H; discriminate. Qed.

Lemma result_of_cases s :
  result_of s = 1%Q \/ result_of s = (1 # 2)%Q \/ result_of s = 0%Q.
Proof.
  unfold result_of. destruct (ceq (winner s) "x"); [tauto |].
  destruct (ceq (winner s) "d"); tauto.
Qed.

Lemma result_of_range s : (0 <= result_of s <= 1)%Q.
Proof.
  destruct (result_of_cases s) as [-> | [-> | ->]]; split; unfold Qle; simpl; lia.
Qed.

(** *** The list of empty cells *)

Lemma collect_front (P : Z -> bool) l acc :
  fold_left (fun av i => if P i then i :: av else av) l acc
  = rev (List.filter P l) ++ acc.
Proof.
  revert acc. induction l as [| i l IH]; intros acc; simpl; [reflexivity |].
  rewrite IH. destruct (P i); simpl; [| reflexivity].
  now rewrite <- app_assoc.
Qed.

Lemma cells_nodup : List.NoDup cells.
Proof.
  unfold cells. repeat constructor; simpl; intuition lia.
Qed.

Lemma available_of_spec s : lists_empty_cells s (available_of s).
Proof.
  unfold lists_empty_cells, available_of. rewrite collect_front, app_nil_r. split.
  - apply NoDup_rev. apply List.NoDup_filter. exact cells_nodup.
  - intros a. rewrite <- in_rev, filter_In, ceq_eq. reflexivity.
Qed.

Lemma collect_back (P : Z -> bool) (f : Z -> TicTacToe_move) l acc :
  fold_left (fun Q i => if P i then Q ++ [f i] else Q) l acc
  = acc ++ List.map f (List.filter P l).
Proof.
  revert acc. induction l as [| i l IH]; intros acc; simpl.
  - now rewrite app_nil_r.
  - rewrite IH. destruct (P i); simpl; [| reflexivity].
    now rewrite <- app_assoc.
Qed.

Lemma actions_to_try_spec s :
  actions_to_try s
  = List.map (fun i => move_at i (turn s))
             (List.filter (fun i => ceq (cell (board s) i) " ") cells).
Proof. unfold actions_to_try. now rewrite collect_back. Qed.

Lemma delete_at_spec (l : list Z) (r : nat) (a : Z) :
  l !! r = Some a -> List.NoDup l ->
  List.NoDup (delete r l) /\
  length l = S (length (delete r l)) /\
  forall b, In b (delete r l) <-> In b l /\ b <> a.
Proof.
  revert r. induction l as [| c l IH]; intros r Hr Hnd; [discriminate |].
  inversion Hnd as [| ? ? Hc Hl]; subst.
  destruct r as [| r]; simpl in *.
  - injection Hr as ->. split; [exact Hl |]. split; [reflexivity |].
    intros b. split.
    + intros Hb. split; [tauto |]. intros ->. contradiction.
    + intros [[Hb | Hb] Hne]; [congruence | exact Hb].
  - destruct (IH r Hr Hl) as [Hnd' [Hlen Hin]]. split; [| split].
    + constructor; [| exact Hnd']. intros Hc'. apply Hin in Hc'. tauto.
    + now rewrite Hlen.
    + intros b. rewrite Hin. split.
      * intros [-> | [Hb Hne]]; [| tauto]. split; [tauto |].
        intros ->. apply Hc. eapply list_elem_of_In, list_elem_of_lookup_2, Hr.
      * intros [[-> | Hb] Hne]; tauto.
Qed.

Lemma erase_first_spec (l : list Z) (a : Z) :
  In a l -> List.NoDup l ->
  List.NoDup (erase_first a l) /\
  length l = S (length (erase_first a l)) /\
  forall b, In b (erase_first a l) <-> In b l /\ b <> a.
Proof.
  induction l as [| c l IH]; intros Ha Hnd; [contradiction |].
  inversion Hnd as [| ? ? Hc Hl]; subst. simpl.
  destruct (c =? a) eqn:Hca.
  - apply Z.eqb_eq in Hca. subst c. split; [exact Hl |]. split; [reflexivity |].
    intros b. split.
    + intros Hb. split; [right; exact Hb |]. intros ->. contradiction.
    + intros [[Hb | Hb] Hne]; [congruence | exact Hb].
  - apply Z.eqb_neq in Hca. destruct Ha as [Ha | Ha]; [contradiction |].
    destruct (IH Ha Hl) as [Hnd' [Hlen Hin]]. split; [| split].
    + constructor; [| exact Hnd']. intros Hc'. apply Hin in Hc'. tauto.
    + simpl. now rewrite Hlen.
    + intros b. simpl. rewrite Hin. split.
      * intros [-> | [Hb Hne]]; [| tauto]. split; [tauto | congruence].
      * intros [[-> | Hb] Hne]; tauto.
Qed.

(** Playing on an available cell keeps the list in step with the board. *)
Lemma lists_empty_cells_play s available a available' :
  wf s -> lists_empty_cells s available -> In a available ->
  List.NoDup available' ->
  (forall b, In b available' <-> In b available /\ b <> a) ->
  lists_empty_cells (play s (move_at a (turn s))) available'.
Proof.
  intros Hwf [Hnd Hav] Ha Hnd' Hin. split; [exact Hnd' |].
  destruct (proj1 (Hav a) Ha) as [Hac _].
  intros b. rewrite Hin, Hav. unfold play, change_turn, move_at. simpl. split.
  - intros [[Hb Hcb] Hne]. split; [exact Hb |].
    rewrite cell_set_other; assumption.
  - intros [Hb Hcb]. destruct (Z.eq_dec b a) as [-> | Hne].
    + rewrite cell_set_same in Hcb by assumption.
      exfalso. exact (wf_turn_not_blank s Hwf Hcb).
    + rewrite cell_set_other in Hcb by assumption. tauto.
Qed.

Lemma nonterminal_has_move s available :
  wf s -> is_terminal s = false -> lists_empty_cells s available ->
  available <> [].
Proof.
  intros [Hw _] Ht [_ Hav] ->. unfold is_terminal in Ht.
  apply negb_false_iff, ceq_eq in Ht. rewrite Hw in Ht.
  destruct (undecided_has_empty_cell _ Ht) as [a Ha].
  apply Hav in Ha. contradiction.
Qed.

(** *** Running the primitives *)

Lemma with_mem_id w : with_mem w (mem w) = w.
Proof. now destruct w. Qed.

Lemma with_mem_twice w h h' : with_mem (with_mem w h) h' = with_mem w h'.
Proof. reflexivity. Qed.

Lemma deref_live w a s : mem w !! a = Some s -> deref (Addr a) w = Ok (s, w).
Proof. unfold deref. now intros ->. Qed.

Lemma call_live {A} (f : TicTacToe_state -> A) w a s :
  mem w !! a = Some s -> call f (Addr a) w = Ok (f s, w).
Proof. intros H. unfold call. now rewrite (bind_ok _ _ _ _ _ (deref_live _ _ _ H)). Qed.

Lemma delete_live w a s :
  mem w !! a = Some s -> delete_ (Addr a) w = Ok (tt, with_mem w (delete a (mem w))).
Proof. unfold delete_. now intros ->. Qed.

Lemma fresh_free (h : gmap nat TicTacToe_state) : h !! fresh (dom h) = None.
Proof. apply not_elem_of_dom, is_fresh. Qed.

Lemma fresh_other (h : gmap nat TicTacToe_state) a s :
  h !! a = Some s -> fresh (dom h) <> a.
Proof. intros H Heq. rewrite <- Heq, fresh_free in H. discriminate. Qed.

(** A legal move: the copy is updated and returned. *)
Lemma next_state_legal w a s m :
  mem w !! a = Some s ->
  in_board m = true ->
  get (board s) (x m) (y m) = " "%char ->
  next_state (Addr a) m w
  = Ok (Addr (fresh (dom (mem w))),
        with_mem w (<[fresh (dom (mem w)) := play s m]> (mem w))).
Proof.
  intros Hs Hin Hfree. unfold next_state.
  rewrite (bind_ok _ _ _ _ _ (deref_live _ _ _ Hs)).
  unfold new at 1. unfold bind at 1. rewrite Hin.
  set (p := fresh (dom (mem w))).
  assert (mem (with_mem w (<[p := s]> (mem w))) !! p = Some s) as Hp
      by apply lookup_insert_eq.
  rewrite (bind_ok _ _ _ _ _ (deref_live _ _ _ Hp)).
  rewrite Hfree. simpl. unfold bind, assign. rewrite Hp. unfold ret.
  rewrite with_mem_twice. simpl. now rewrite insert_insert_eq.
Qed.

(** An occupied cell: null is returned, and the copy stays behind. *)
Lemma next_state_occupied w a s m :
  mem w !! a = Some s ->
  in_board m = true ->
  get (board s) (x m) (y m) <> " "%char ->
  next_state (Addr a) m w
  = Ok (NULL, with_mem w (<[fresh (dom (mem w)) := s]> (mem w))).
Proof.
  intros Hs Hin Hocc. unfold next_state.
  rewrite (bind_ok _ _ _ _ _ (deref_live _ _ _ Hs)).
  unfold new at 1. unfold bind at 1. rewrite Hin.
  set (p := fresh (dom (mem w))).
  assert (mem (with_mem w (<[p := s]> (mem w))) !! p = Some s) as Hp
      by apply lookup_insert_eq.
  rewrite (bind_ok _ _ _ _ _ (deref_live _ _ _ Hp)).
  apply ceq_neq in Hocc. now rewrite Hocc.
Qed.

Lemma next_state_outside w a s m :
  mem w !! a = Some s ->
  in_board m = false ->
  next_state (Addr a) m w = Fault OutOfBounds.
Proof.
  intros Hs Hin. unfold next_state.
  rewrite (bind_ok _ _ _ _ _ (deref_live _ _ _ Hs)).
  unfold new at 1. unfold bind at 1. now rewrite Hin.
Qed.

(** Trying a move and deleting the result leaves the world as it was. *)
Lemma try_and_delete w a s pos p :
  mem w !! a = Some s -> In pos cells -> cell (board s) pos = " "%char ->
  exists q w1,
    next_state (Addr a) (move_at pos p) w = Ok (Addr q, w1) /\
    mem w1 !! q = Some (play s (move_at pos p)) /\
    mem w1 !! a = Some s /\
    gen_rollout w1 = gen_rollout w /\ gen_best w1 = gen_best w /\
    delete_ (Addr q) w1 = Ok (tt, w).
Proof.
  intros Hs Hpos Hfree.
  exists (fresh (dom (mem w))), (with_mem w (<[fresh (dom (mem w)) := play s (move_at pos p)]> (mem w))).
  pose proof (fresh_free (mem w)) as Hq.
  pose proof (fresh_other _ _ _ Hs) as Hne.
  split; [| split; [| split; [| split; [| split]]]].
  - apply next_state_legal; auto using move_at_in_board.
  - apply lookup_insert_eq.
  - simpl. now rewrite lookup_insert_ne.
  - reflexivity.
  - reflexivity.
  - erewrite delete_live by apply lookup_insert_eq.
    rewrite with_mem_twice. simpl. rewrite delete_insert_id by exact Hq.
    now rewrite with_mem_id.
Qed.

(** *** find_best_heuristic_move *)

Lemma in_mem_pos pos available : mem_pos pos available = true -> In pos available.
Proof.
  unfold mem_pos. intros H. apply existsb_exists in H.
  destruct H as [b [Hb Heq]]. apply Z.eqb_eq in Heq. now subst.
Qed.

Lemma draw_in_range g n : n <> 0%nat -> (fst (draw g n) < n)%nat.
Proof.
  intros Hn. destruct g as [| r g]; simpl.
  - lia.
  - now apply Nat.mod_upper_bound.
Qed.

Lemma pick_in_range (available : list Z) g :
  available <> [] ->
  exists a, available !! fst (draw g (length available)) = Some a /\ In a available.
Proof.
  intros Hne.
  assert (length available <> 0%nat) as Hlen by (destruct available; simpl; congruence).
  pose proof (draw_in_range g _ Hlen) as Hr.
  destruct (lookup_lt_is_Some_2 available _ Hr) as [a Ha].
  exists a. split; [exact Ha |].
  eapply list_elem_of_In, list_elem_of_lookup_2, Ha.
Qed.

Lemma winning_position_spec a s who c positions w :
  mem w !! a = Some s ->
  (forall w', mem w' !! a = Some s -> who w' = Ok (c, w')) ->
  (forall pos, In pos positions -> In pos cells /\ cell (board s) pos = " "%char) ->
  exists r,
    winning_position (Addr a) who positions w = Ok (r, w) /\
    (forall pos, r = Some pos -> In pos positions).
Proof.
  intros Hs Hwho. induction positions as [| pos rest IH]; intros Hfree.
  - exists None. split; [reflexivity | discriminate].
  - destruct (Hfree pos (or_introl eq_refl)) as [Hpos Hcell].
    destruct (try_and_delete w a s pos c Hs Hpos Hcell)
      as (q & w1 & Hnext & Hq & Ha & _ & _ & Hdel).
    cbn [winning_position].
    rewrite (bind_ok _ _ _ _ _ (Hwho w Hs)).
    rewrite (bind_ok _ _ _ _ _ Hnext).
    rewrite (bind_ok _ _ _ _ _ (call_live winner _ _ _ Hq)).
    rewrite (bind_ok _ _ _ _ _ (Hwho w1 Ha)).
    destruct (ceq _ c).
    + rewrite (bind_ok _ _ _ _ _ Hdel). exists (Some pos). split; [reflexivity |].
      intros ? [= <-]. now left.
    + rewrite (bind_ok _ _ _ _ _ Hdel).
      destruct IH as [r [Hr Hin]].
      { intros p Hp. apply Hfree. now right. }
      exists r. split; [exact Hr |]. intros p Hp. right. now apply Hin.
Qed.

Lemma find_best_heuristic_move_spec a s available w :
  mem w !! a = Some s ->
  available <> [] ->
  (forall pos, In pos available -> In pos cells /\ cell (board s) pos = " "%char) ->
  exists best w',
    find_best_heuristic_move (Addr a) available w = Ok (best, w') /\
    In best available /\
    mem w' = mem w /\ gen_rollout w' = gen_rollout w.
Proof.
  intros Hs Hne Hfree. unfold find_best_heuristic_move.
  destruct (winning_position_spec a s (call turn (Addr a)) (turn s) available w Hs)
    as [win [Hwin Hwin_in]]; [intros w' Hw'; now apply call_live | exact Hfree |].
  rewrite (bind_ok _ _ _ _ _ Hwin).
  destruct win as [pos |].
  { exists pos, w. split; [reflexivity |]. split; [now apply Hwin_in | tauto]. }
  rewrite (bind_ok _ _ _ _ _ (call_live turn _ _ _ Hs)).
  set (opponent := if ceq (turn s) "x" then "o"%char else "x"%char).
  destruct (winning_position_spec a s (ret opponent) opponent available w Hs)
    as [block [Hblock Hblock_in]]; [reflexivity | exact Hfree |].
  rewrite (bind_ok _ _ _ _ _ Hblock).
  destruct block as [pos |].
  { exists pos, w. split; [reflexivity |]. split; [now apply Hblock_in | tauto]. }
  destruct (mem_pos 4 available) eqn:Hcentre.
  { exists 4, w. split; [reflexivity |]. split; [now apply in_mem_pos | tauto]. }
  destruct (find _ corners) as [corner |] eqn:Hcorner.
  { apply find_some in Hcorner. destruct Hcorner as [_ Hcorner].
    exists corner, w. split; [reflexivity |]. split; [now apply in_mem_pos | tauto]. }
  destruct (pick_in_range available (gen_best w) Hne) as [b [Hb Hin]].
  unfold bind, dis_best.
  destruct (Nat.eqb_spec (length available) 0) as [Hz | _].
  { destruct available; [congruence | discriminate]. }
  destruct (draw (gen_best w) (length available)) as [r g] eqn:Hd.
  simpl in Hb. rewrite Hb.
  eexists b, _. split; [reflexivity |]. split; [exact Hin |]. split; reflexivity.
Qed.

(** *** The simulation loops *)

Lemma heap_at_live h0 first a cur h : heap_at h0 first a cur h -> h !! a = Some cur.
Proof.
  destruct first; intros [-> H]; [exact H | apply lookup_insert_eq].
Qed.

(** One turn of either loop, as far as memory goes: the successor is
    allocated, and the state left behind is deleted unless it is [this]. *)
Lemma step_memory h0 first a cur w pos p :
  heap_at h0 first a cur (mem w) ->
  In pos cells -> cell (board cur) pos = " "%char ->
  exists q w1 w2,
    next_state (Addr a) (move_at pos p) w = Ok (Addr q, w1) /\
    (if first then ret tt else delete_ (Addr a)) w1 = Ok (tt, w2) /\
    heap_at h0 false q (play cur (move_at pos p)) (mem w2) /\
    gen_rollout w2 = gen_rollout w /\ gen_best w2 = gen_best w.
Proof.
  intros Hat Hpos Hfree.
  pose proof (heap_at_live _ _ _ _ _ Hat) as Hcur.
  pose proof (fresh_free (mem w)) as Hq.
  pose proof (fresh_other _ _ _ Hcur) as Hne.
  set (q := fresh (dom (mem w))) in *.
  set (nxt := play cur (move_at pos p)).
  exists q, (with_mem w (<[q := nxt]> (mem w))).
  destruct first; simpl in Hat; destruct Hat as [Hmem Ha].
  - exists (with_mem w (<[q := nxt]> (mem w))).
    split; [apply next_state_legal; auto using move_at_in_board |].
    split; [reflexivity |].
    split; [| split; reflexivity].
    simpl. rewrite Hmem in *. split; [reflexivity | exact Hq].
  - exists (with_mem w (<[q := nxt]> h0)).
    split; [apply next_state_legal; auto using move_at_in_board |].
    assert (h0 !! q = None) as Hq0.
    { rewrite Hmem in Hq. now rewrite lookup_insert_ne in Hq by congruence. }
    split; [| split; [| split; reflexivity]].
    + erewrite delete_live
        by (simpl; rewrite lookup_insert_ne by exact Hne; exact Hcur).
      rewrite with_mem_twice. simpl. rewrite Hmem.
      rewrite delete_insert_ne by congruence.
      now rewrite delete_insert_id by exact Ha.
    + simpl. split; [reflexivity | exact Hq0].
Qed.

(** Leaving the loop: the last state is deleted and memory is [h0] again. *)
Lemma leave_memory h0 q t w :
  heap_at h0 false q t (mem w) ->
  delete_ (Addr q) w = Ok (tt, with_mem w h0).
Proof.
  intros [Hmem Hq]. erewrite delete_live by (rewrite Hmem; apply lookup_insert_eq).
  rewrite Hmem. now rewrite delete_insert_id by exact Hq.
Qed.

Lemma dis_rollout_spec (available : list Z) w :
  available <> [] ->
  exists r g pos,
    dis_rollout (length available) w = Ok (r, mkWorld (mem w) g (gen_best w)) /\
    available !! r = Some pos /\ In pos available.
Proof.
  intros Hne. destruct (pick_in_range available (gen_rollout w) Hne) as [b [Hb Hin]].
  unfold dis_rollout.
  destruct (Nat.eqb_spec (length available) 0) as [Hz | _].
  { destruct available; [congruence | discriminate]. }
  destruct (draw (gen_rollout w) (length available)) as [r g] eqn:Hd.
  simpl in Hb. exists r, g, b. auto.
Qed.

Lemma rollout_loop_spec h0 fuel :
  forall available a cur first w,
    (length available < fuel)%nat ->
    wf cur -> is_terminal cur = false ->
    lists_empty_cells cur available ->
    heap_at h0 first a cur (mem w) ->
    exists v w' t,
      rollout_loop fuel available (Addr a) first w = Ok (v, w') /\
      mem w' = h0 /\ gen_best w' = gen_best w /\
      playout cur t /\ is_terminal t = true /\ v = result_of t.
Proof.
  induction fuel as [| fuel IH]; intros available a cur first w Hlen Hwf Hrun Hav Hat;
    [lia |].
  pose proof (nonterminal_has_move _ _ Hwf Hrun Hav) as Hne.
  destruct (dis_rollout_spec available w Hne) as (r & g & pos & Hdraw & Hr & Hin).
  set (wr := mkWorld (mem w) g (gen_best w)) in *.
  destruct (proj1 (proj2 Hav pos) Hin) as [Hpos Hfree].
  assert (heap_at h0 first a cur (mem wr)) as Hat' by exact Hat.
  destruct (step_memory _ _ _ _ _ pos (turn cur) Hat' Hpos Hfree)
    as (q & w1 & w2 & Hnext & Hold & Hat2 & _ & Hgb).
  pose proof (heap_at_live _ _ _ _ _ Hat2) as Hq.
  destruct (delete_at_spec _ _ _ Hr (proj1 Hav)) as (Hnd' & Hlen' & Hin').
  cbn [rollout_loop].
  destruct available as [| a0 rest] eqn:Heq; [congruence |]. rewrite <- Heq in *.
  rewrite (bind_ok _ _ _ _ _ Hdraw). rewrite Hr.
  rewrite (bind_ok _ _ _ _ _ (deref_live _ _ _ (heap_at_live _ _ _ _ _ Hat'))).
  rewrite (bind_ok _ _ _ _ _ Hnext).
  rewrite (bind_ok _ _ _ _ _ Hold).
  rewrite (bind_ok _ _ _ _ _ (call_live is_terminal _ _ _ Hq)).
  set (nxt := play cur (move_at pos (turn cur))) in *.
  destruct (is_terminal nxt) eqn:Hterm; simpl.
  - rewrite (bind_ok _ _ _ _ _ (call_live result_of _ _ _ Hq)).
    rewrite (bind_ok _ _ _ _ _ (leave_memory _ _ _ _ Hat2)).
    exists (result_of nxt), (with_mem w2 h0), nxt.
    split; [reflexivity |]. split; [reflexivity |]. split; [exact Hgb |].
    split; [| split; [exact Hterm | reflexivity]].
    eapply playout_move; eauto using playout_stop.
  - destruct (IH (delete r available) q nxt false w2) as (v & w' & t & Hloop & Hm & Hg & Hplay & Ht & Hv).
    + lia.
    + apply wf_play.
    + exact Hterm.
    + eapply lists_empty_cells_play; eauto.
    + exact Hat2.
    + exists v, w', t. split; [exact Hloop |]. split; [exact Hm |].
      split; [now rewrite Hg |]. split; [| tauto].
      eapply playout_move; eauto.
Qed.

Lemma heuristic_loop_spec h0 fuel :
  forall available a cur first w,
    (length available < fuel)%nat ->
    wf cur -> is_terminal cur = false ->
    lists_empty_cells cur available ->
    heap_at h0 first a cur (mem w) ->
    exists v w' t,
      heuristic_loop fuel available (Addr a) first w = Ok (v, w') /\
      mem w' = h0 /\ gen_rollout w' = gen_rollout w /\
      playout cur t /\ is_terminal t = true /\ v = result_of t.
Proof.
  induction fuel as [| fuel IH]; intros available a cur first w Hlen Hwf Hrun Hav Hat;
    [lia |].
  pose proof (nonterminal_has_move _ _ Hwf Hrun Hav) as Hne.
  pose proof (heap_at_live _ _ _ _ _ Hat) as Hcur.
  destruct (find_best_heuristic_move_spec a cur available w Hcur Hne)
    as (pos & wb & Hbest & Hin & Hmem & Hgr).
  { intros p Hp. now apply (proj2 Hav). }
  destruct (proj1 (proj2 Hav pos) Hin) as [Hpos Hfree].
  assert (heap_at h0 first a cur (mem wb)) as Hat' by (now rewrite Hmem).
  pose proof (heap_at_live _ _ _ _ _ Hat') as Hcur'.
  destruct (step_memory _ _ _ _ _ pos (turn cur) Hat' Hpos Hfree)
    as (q & w1 & w2 & Hnext & Hold & Hat2 & Hgr2 & _).
  pose proof (heap_at_live _ _ _ _ _ Hat2) as Hq.
  destruct (erase_first_spec _ _ Hin (proj1 Hav)) as (Hnd' & Hlen' & Hin').
  cbn [heuristic_loop].
  destruct available as [| a0 rest] eqn:Heq; [congruence |]. rewrite <- Heq in *.
  rewrite (bind_ok _ _ _ _ _ Hbest).
  rewrite (bind_ok _ _ _ _ _ (call_live turn _ _ _ Hcur')).
  rewrite (bind_ok _ _ _ _ _ Hnext).
  rewrite (bind_ok _ _ _ _ _ Hold).
  rewrite (bind_ok _ _ _ _ _ (call_live is_terminal _ _ _ Hq)).
  set (nxt := play cur (move_at pos (turn cur))) in *.
  destruct (is_terminal nxt) eqn:Hterm; simpl.
  - rewrite (bind_ok _ _ _ _ _ (call_live result_of _ _ _ Hq)).
    rewrite (bind_ok _ _ _ _ _ (leave_memory _ _ _ _ Hat2)).
    exists (result_of nxt), (with_mem w2 h0), nxt.
    split; [reflexivity |]. split; [reflexivity |].
    split; [simpl; congruence |].
    split; [| split; [exact Hterm | reflexivity]].
    eapply playout_move; eauto using playout_stop.
  - destruct (IH (erase_first pos available) q nxt false w2)
      as (v & w' & t & Hloop & Hm & Hg & Hplay & Ht & Hv).
    + lia.
    + apply wf_play.
    + exact Hterm.
    + eapply lists_empty_cells_play; eauto.
    + exact Hat2.
    + exists v, w', t. split; [exact Hloop |]. split; [exact Hm |].
      split; [congruence |]. split; [| tauto].
      eapply playout_move; eauto.
Qed.

(** *** The two simulations *)

Lemma result_of_meets s w : is_terminal s = true -> simulation_result s w (result_of s) w.
Proof.
  intros Ht. split; [| split; [apply result_of_range | split]].
  - destruct (result_of_cases s) as [H | [H | H]]; tauto.
  - intros _. split; [reflexivity |]. unfold result_of.
    split; [| split].
    + intros ->. reflexivity.
    + intros ->. reflexivity.
    + intros Hx Hd. apply ceq_neq in Hx, Hd. now rewrite Hx, Hd.
  - congruence.
Qed.

Lemma playout_meets s w t w' :
  is_terminal s = false -> playout s t -> is_terminal t = true ->
  simulation_result s w (result_of t) w'.
Proof.
  intros Hs Hp Ht. split; [| split; [apply result_of_range | split]].
  - destruct (result_of_cases t) as [H | [H | H]]; tauto.
  - congruence.
  - intros _. now exists t.
Qed.

Lemma rollout_spec w a s :
  mem w !! a = Some s -> wf s ->
  exists v w', rollout (Addr a) w = Ok (v, w') /\ mem w' = mem w /\
               simulation_result s w v w'.
Proof.
  intros Hs Hwf. unfold rollout.
  rewrite (bind_ok _ _ _ _ _ (deref_live _ _ _ Hs)).
  destruct (is_terminal s) eqn:Ht.
  - exists (result_of s), w. split; [reflexivity |]. split; [reflexivity |].
    now apply result_of_meets.
  - destruct (rollout_loop_spec (mem w) (S (length (available_of s)))
                (available_of s) a s true w)
      as (v & w' & t & Hloop & Hm & _ & Hplay & Hterm & ->).
    + lia.
    + exact Hwf.
    + exact Ht.
    + apply available_of_spec.
    + split; [reflexivity | exact Hs].
    + exists (result_of t), w'. split; [exact Hloop |]. split; [exact Hm |].
      now apply playout_meets.
Qed.

Lemma heuristic_rollout_spec w a s :
  mem w !! a = Some s -> wf s ->
  exists v w', heuristic_rollout (Addr a) w = Ok (v, w') /\ mem w' = mem w /\
               simulation_result s w v w'.
Proof.
  intros Hs Hwf. unfold heuristic_rollout.
  rewrite (bind_ok _ _ _ _ _ (deref_live _ _ _ Hs)).
  destruct (is_terminal s) eqn:Ht.
  - exists (result_of s), w. split; [reflexivity |]. split; [reflexivity |].
    now apply result_of_meets.
  - destruct (heuristic_loop_spec (mem w) (S (length (available_of s)))
                (available_of s) a s true w)
      as (v & w' & t & Hloop & Hm & _ & Hplay & Hterm & ->).
    + lia.
    + exact Hwf.
    + exact Ht.
    + apply available_of_spec.
    + split; [reflexivity | exact Hs].
    + exists (result_of t), w'. split; [exact Hloop |]. split; [exact Hm |].
      now apply playout_meets.
Qed.

(** What [next_state] returns is again a state with a computed winner
    and a player to move, whatever the receiver was. *)
Lemma next_state_yields_wf w a s m q w' :
  mem w !! a = Some s -> in_board m = true ->
  next_state (Addr a) m w = Ok (Addr q, w') ->
  exists s', mem w' !! q = Some s' /\ wf s'.
Proof.
  intros Hs Hin Hrun.
  destruct (Ascii.eqb_spec (get (board s) (x m) (y m)) " ") as [Hfree | Hocc].
  - rewrite (next_state_legal w a s m Hs Hin Hfree) in Hrun.
    injection Hrun as <- <-. exists (play s m).
    split; [apply lookup_insert_eq | apply wf_play].
  - rewrite (next_state_occupied w a s m Hs Hin Hocc) in Hrun. discriminate.
Qed.

(** The example state is what the five moves lead to. *)
Lemma top_row_won_reached :
  value_of (play_all (Addr 0) top_row_moves world0) = Some top_row_won.
Proof. vm_compute. reflexivity. Qed.

Lemma top_row_won_wf : wf top_row_won.
Proof. split; [reflexivity | right; reflexivity]. Qed.

(** *** A few runs *)

(** The centre is free in a new game and taken after one move there. *)
Example centre_twice :
  value_of ((p <- next_state (Addr 0) (mkMove 1 1 "x") ;;
             next_state p (mkMove 1 1 "o")) world0)
  = Some NULL.
Proof. vm_compute. reflexivity. Qed.

Example outside_the_board :
  next_state (Addr 0) (mkMove 3 0 "x") world0 = Fault OutOfBounds.
Proof. vm_compute. reflexivity. Qed.

(** With a generator that always picks the first available cell, the
    moves go to cells 8, 7, 6, 5 and 4, and x wins on the bottom row; the
    heuristic playout of a new game is a draw. *)
Example rollout_first_available :
  value_of (rollout (Addr 0) world0) = Some 1%Q /\
  value_of (heuristic_rollout (Addr 0) world0) = Some (1 # 2)%Q.
Proof. split; vm_compute; reflexivity. Qed.

(** Another generator, another playout: here o wins. *)
Example rollout_o_wins :
  value_of (rollout (Addr 0) (world_with [0; 7; 0; 5; 1; 3]%nat)) = Some 0%Q.
Proof. vm_compute. reflexivity. Qed.

(** On the board x has already won, nothing is simulated. *)
Example rollout_on_won_board :
  rollout (Addr 0) (mkWorld {[ 0%nat := top_row_won ]} [5; 5]%nat [])
  = Ok (1%Q, mkWorld {[ 0%nat := top_row_won ]} [5; 5]%nat []).
Proof. vm_compute. reflexivity. Qed.

(** *** Claims *)

(** C1, as stated: the queue of [actions_to_try] is empty exactly when the
    state is terminal.  It fails on the state reached when x completes the
    top row with her third move: the state is terminal, and the four cells
    still empty are all offered as moves. *)
Lemma actions_to_try_nonempty_on_won_board :
  value_of (play_all (Addr 0) top_row_moves world0) = Some top_row_won /\
  is_terminal top_row_won = true /\
  actions_to_try top_row_won
  = [mkMove 1 2 "o"; mkMove 2 0 "o"; mkMove 2 1 "o"; mkMove 2 2 "o"] /\
  ~ (actions_to_try top_row_won = [] <-> is_terminal top_row_won = true).
Proof.
  split; [exact top_row_won_reached |].
  split; [reflexivity |]. split; [reflexivity |].
  intros [_ H]. specialize (H eq_refl). discriminate H.
Qed.

(** C1, amended: [actions_to_try] offers one move per empty cell, in the
    order of the cells and for the player to move; its queue is empty
    exactly when no cell is empty.  So an empty queue means a terminal
    state, and a state that is not terminal always has a move. *)
Theorem actions_to_try_empty_iff_board_full (s : TicTacToe_state) (Hwf : wf s) :
  actions_to_try s
  = List.map (fun i => mkMove (Z.quot i 3) (Z.rem i 3) (turn s))
             (List.filter (fun i => ceq (cell (board s) i) " ") cells) /\
  (actions_to_try s = [] <-> forall a, In a cells -> cell (board s) a <> " "%char) /\
  (actions_to_try s = [] -> is_terminal s = true) /\
  (is_terminal s = false -> actions_to_try s <> []).
Proof.
  assert (actions_to_try s = [] <-> forall a, In a cells -> cell (board s) a <> " "%char)
    as Hfull.
  { rewrite actions_to_try_spec. split.
    - intros Hnil a Ha Hc. apply map_eq_nil in Hnil.
      assert (In a (List.filter (fun i => ceq (cell (board s) i) " ") cells)) as Hin
          by (apply filter_In; split; [exact Ha | now apply ceq_eq]).
      rewrite Hnil in Hin. contradiction.
    - intros Hall.
      destruct (List.filter _ cells) as [| a l] eqn:Hf; [reflexivity |].
      assert (In a (List.filter (fun i => ceq (cell (board s) i) " ") cells)) as Hin
          by (rewrite Hf; now left).
      apply filter_In in Hin. destruct Hin as [Ha Hc]. apply ceq_eq in Hc.
      now destruct (Hall a Ha). }
  assert (actions_to_try s = [] -> is_terminal s = true) as Hterm.
  { intros Hnil. unfold is_terminal. apply negb_true_iff, ceq_neq.
    rewrite (proj1 Hwf). apply full_board_decided. now apply Hfull. }
  split; [apply actions_to_try_spec |]. split; [exact Hfull |].
  split; [exact Hterm |].
  intros Hrun Hnil. rewrite (Hterm Hnil) in Hrun. discriminate.
Qed.

Lemma actions_to_try_empty_iff_board_full_new_game :
  wf TicTacToe_state_new /\
  (actions_to_try TicTacToe_state_new = [] -> is_terminal TicTacToe_state_new = true) /\
  (is_terminal TicTacToe_state_new = false -> actions_to_try TicTacToe_state_new <> []).
Proof.
  split; [split; [reflexivity | left; reflexivity] |].
  apply (actions_to_try_empty_iff_board_full TicTacToe_state_new).
  split; [reflexivity | left; reflexivity].
Defined.

(** C3: for a move inside the board, [next_state] returns null exactly
    when the cell of the move is occupied; otherwise it returns a newly
    allocated state that differs from the receiver in that one cell, which
    holds the player of the move, whose winner is the one computed from the
    new board, and in which the other player is to move. *)
Theorem next_state_null_iff_occupied
        (w : World) (a : nat) (s : TicTacToe_state) (m : TicTacToe_move)
        (Hs : mem w !! a = Some s) (Hin : in_board m = true) :
  exists r w',
    next_state (Addr a) m w = Ok (r, w') /\
    (r = NULL <-> get (board s) (x m) (y m) <> " "%char) /\
    (get (board s) (x m) (y m) = " "%char ->
     exists q s',
       r = Addr q /\ mem w !! q = None /\ mem w' !! q = Some s' /\
       get (board s') (x m) (y m) = player m /\
       (forall i j, (i, j) <> (x m, y m) -> get (board s') i j = get (board s) i j) /\
       winner s' = calculate_winner (board s') /\
       turn s' <> turn s /\
       (turn s = "x"%char -> turn s' = "o"%char) /\
       (turn s = "o"%char -> turn s' = "x"%char)).
Proof.
  destruct (Ascii.eqb_spec (get (board s) (x m) (y m)) " ") as [Hfree | Hocc].
  - exists (Addr (fresh (dom (mem w)))),
      (with_mem w (<[fresh (dom (mem w)) := play s m]> (mem w))).
    split; [now apply next_state_legal |].
    split; [split; [discriminate | contradiction] |].
    intros _. exists (fresh (dom (mem w))), (play s m).
    split; [reflexivity |]. split; [apply fresh_free |].
    split; [apply lookup_insert_eq |].
    assert (in_board (mkMove (x m) (y m) (player m)) = true) as Hin'
        by (now destruct m).
    split; [now apply get_set_same |].
    split; [intros i j Hne; now apply get_set_other |].
    split; [reflexivity |].
    unfold play, change_turn. simpl.
    destruct (Ascii.eqb_spec (turn s) "x") as [Hx | Hx]; unfold ceq.
    + rewrite Hx. simpl. repeat split; congruence.
    + apply Ascii.eqb_neq in Hx. rewrite Hx.
      apply Ascii.eqb_neq in Hx. repeat split; congruence.
  - exists NULL, (with_mem w (<[fresh (dom (mem w)) := s]> (mem w))).
    split; [now apply next_state_occupied |].
    split; [tauto | contradiction].
Qed.

Lemma next_state_null_iff_occupied_centre :
  mem world0 !! 0%nat = Some TicTacToe_state_new /\
  in_board (mkMove 1 1 "x") = true /\
  exists r w',
    next_state (Addr 0) (mkMove 1 1 "x") world0 = Ok (r, w') /\
    (r = NULL <-> get (board TicTacToe_state_new) 1 1 <> " "%char) /\
    (get (board TicTacToe_state_new) 1 1 = " "%char ->
     exists q s',
       r = Addr q /\ mem world0 !! q = None /\ mem w' !! q = Some s' /\
       get (board s') 1 1 = "x"%char /\
       (forall i j, (i, j) <> (1, 1) -> get (board s') i j = get (board TicTacToe_state_new) i j) /\
       winner s' = calculate_winner (board s') /\
       turn s' <> turn TicTacToe_state_new /\
       (turn TicTacToe_state_new = "x"%char -> turn s' = "o"%char) /\
       (turn TicTacToe_state_new = "o"%char -> turn s' = "x"%char)).
Proof.
  split; [reflexivity |]. split; [reflexivity |].
  apply (next_state_null_iff_occupied world0 0%nat TicTacToe_state_new (mkMove 1 1 "x"));
    reflexivity.
Defined.

(** C4: on every state, [rollout] and [heuristic_rollout] return one of
    0, 1/2 and 1.  On a terminal state they return at once, leaving the
    world as it is: 1 when the winner is 'x', 1/2 for a draw, 0 otherwise.
    On any other state they return the result of a terminal state that a
    playout from the state leads to. *)
Theorem rollouts_return_playout_result
        (w : World) (a : nat) (s : TicTacToe_state)
        (Hs : mem w !! a = Some s) (Hwf : wf s) :
  (exists v w', rollout (Addr a) w = Ok (v, w') /\ simulation_result s w v w') /\
  (exists v w', heuristic_rollout (Addr a) w = Ok (v, w') /\ simulation_result s w v w').
Proof.
  split.
  - destruct (rollout_spec w a s Hs Hwf) as (v & w' & Hrun & _ & Hres).
    now exists v, w'.
  - destruct (heuristic_rollout_spec w a s Hs Hwf) as (v & w' & Hrun & _ & Hres).
    now exists v, w'.
Qed.

Lemma rollouts_return_playout_result_new_game :
  mem world0 !! 0%nat = Some TicTacToe_state_new /\
  wf TicTacToe_state_new /\
  (exists v w', rollout (Addr 0) world0 = Ok (v, w') /\
                simulation_result TicTacToe_state_new world0 v w') /\
  (exists v w', heuristic_rollout (Addr 0) world0 = Ok (v, w') /\
                simulation_result TicTacToe_state_new world0 v w').
Proof.
  split; [reflexivity |].
  split; [split; [reflexivity | left; reflexivity] |].
  apply (rollouts_return_playout_result world0 0%nat TicTacToe_state_new).
  - reflexivity.
  - split; [reflexivity | left; reflexivity].
Defined.

(** C9: [actions_to_try], [next_state], [rollout] and [heuristic_rollout]
    leave the receiver as it was.  [next_state] returns an object other
    than the receiver and changes no object that existed before; the two
    simulations return with memory exactly as they found it, every state
    they allocated deleted again and the receiver neither written nor
    deleted. *)
Theorem operations_leave_receiver_unchanged
        (w : World) (a : nat) (s : TicTacToe_state)
        (Hs : mem w !! a = Some s) (Hwf : wf s) :
  (exists Q w', call actions_to_try (Addr a) w = Ok (Q, w') /\
                mem w' !! a = Some s) /\
  (forall m, in_board m = true ->
             exists r w', next_state (Addr a) m w = Ok (r, w') /\
                          r <> Addr a /\
                          mem w' !! a = Some s /\
                          forall b t, mem w !! b = Some t -> mem w' !! b = Some t) /\
  (exists v w', rollout (Addr a) w = Ok (v, w') /\
                mem w' = mem w /\ mem w' !! a = Some s) /\
  (exists v w', heuristic_rollout (Addr a) w = Ok (v, w') /\
                mem w' = mem w /\ mem w' !! a = Some s).
Proof.
  split; [| split; [| split]].
  - exists (actions_to_try s), w. split; [now apply call_live | exact Hs].
  - intros m Hin.
    assert (forall t' b t, mem w !! b = Some t ->
                           (<[fresh (dom (mem w)) := t']> (mem w)) !! b = Some t) as Hkeep.
    { intros t' b t Hb. rewrite lookup_insert_ne; [exact Hb |].
      now apply (fresh_other _ _ t). }
    destruct (Ascii.eqb_spec (get (board s) (x m) (y m)) " ") as [Hfree | Hocc].
    + eexists _, _. split; [apply (next_state_legal w a s m Hs Hin Hfree) |].
      split; [| split; [apply Hkeep, Hs | intros b t Hb; apply Hkeep, Hb]].
      intros [= Heq]. now apply (fresh_other _ _ _ Hs).
    + eexists _, _. split; [apply (next_state_occupied w a s m Hs Hin Hocc) |].
      split; [discriminate |].
      split; [apply Hkeep, Hs | intros b t Hb; apply Hkeep, Hb].
  - destruct (rollout_spec w a s Hs Hwf) as (v & w' & Hrun & Hm & _).
    exists v, w'. split; [exact Hrun |]. split; [exact Hm | now rewrite Hm].
  - destruct (heuristic_rollout_spec w a s Hs Hwf) as (v & w' & Hrun & Hm & _).
    exists v, w'. split; [exact Hrun |]. split; [exact Hm | now rewrite Hm].
Qed.

Lemma operations_leave_receiver_unchanged_new_game :
  mem world0 !! 0%nat = Some TicTacToe_state_new /\
  wf TicTacToe_state_new /\
  (exists v w', rollout (Addr 0) world0 = Ok (v, w') /\
                mem w' = mem world0 /\ mem w' !! 0%nat = Some TicTacToe_state_new) /\
  (exists v w', heuristic_rollout (Addr 0) world0 = Ok (v, w') /\
                mem w' = mem world0 /\ mem w' !! 0%nat = Some TicTacToe_state_new).
Proof.
  split; [reflexivity |].
  split; [split; [reflexivity | left; reflexivity] |].
  apply (operations_leave_receiver_unchanged world0 0%nat TicTacToe_state_new).
  - reflexivity.
  - split; [reflexivity | left; reflexivity].
Defined.


(** *** Further properties: moves *)

Lemma in_board_cases m :
  in_board m = true ->
  (x m = 0 \/ x m = 1 \/ x m = 2) /\ (y m = 0 \/ y m = 1 \/ y m = 2).
Proof. unfold in_board. intros H. lia. Qed.

Lemma in_board_index m :
  in_board m = true ->
  In (x m * 3 + y m) cells /\
  Z.quot (x m * 3 + y m) 3 = x m /\ Z.rem (x m * 3 + y m) 3 = y m.
Proof.
  intros H. destruct (in_board_cases m H) as [Hx Hy].
  destruct Hx as [-> | [-> | ->]]; destruct Hy as [-> | [-> | ->]];
    (split; [apply in_cells; lia | split; reflexivity]).
Qed.

Lemma index_of_cell i : In i cells -> Z.quot i 3 * 3 + Z.rem i 3 = i.
Proof. intros H. each_cell H; reflexivity. Qed.

Lemma in_actions_to_try s m :
  In m (actions_to_try s) <->
  exists i, In i cells /\ cell (board s) i = " "%char /\ m = move_at i (turn s).
Proof.
  rewrite actions_to_try_spec, in_map_iff. split.
  - intros [i [<- Hi]]. apply filter_In in Hi. destruct Hi as [Hi Hc].
    exists i. split; [exact Hi |]. split; [now apply ceq_eq | reflexivity].
  - intros [i [Hi [Hc ->]]]. exists i. split; [reflexivity |].
    apply filter_In. split; [exact Hi | now apply ceq_eq].
Qed.

(** X1: [actions_to_try] and [next_state] agree on what a move is.  Every
    move of the queue lies on the board, is a move of the player to move,
    and is accepted by [next_state]; every cell on which [next_state]
    accepts a move is in the queue; no move is queued twice, and there are
    at most nine. *)
Theorem actions_to_try_are_the_legal_moves
        (w : World) (a : nat) (s : TicTacToe_state) (Hs : mem w !! a = Some s) :
  (forall m, In m (actions_to_try s) ->
             in_board m = true /\ player m = turn s /\
             exists q w', next_state (Addr a) m w = Ok (Addr q, w')) /\
  (forall m, in_board m = true ->
             (exists q w', next_state (Addr a) m w = Ok (Addr q, w')) ->
             In (mkMove (x m) (y m) (turn s)) (actions_to_try s)) /\
  List.NoDup (actions_to_try s) /\
  (length (actions_to_try s) <= 9)%nat.
Proof.
  split; [| split; [| split]].
  - intros m Hm. apply in_actions_to_try in Hm. destruct Hm as (i & Hi & Hc & ->).
    split; [now apply move_at_in_board |]. split; [reflexivity |].
    eexists _, _.
    apply next_state_legal; [exact Hs | now apply move_at_in_board | exact Hc].
  - intros m Hin (q & w' & Hrun).
    destruct (Ascii.eqb_spec (get (board s) (x m) (y m)) " ") as [Hfree | Hocc].
    + destruct (in_board_index m Hin) as (Hi & Hq & Hr).
      apply in_actions_to_try. exists (x m * 3 + y m).
      split; [exact Hi |]. unfold cell, move_at. rewrite Hq, Hr. now split.
    + rewrite (next_state_occupied w a s m Hs Hin Hocc) in Hrun. discriminate.
  - apply (NoDup_map_inv (fun m => x m * 3 + y m)).
    rewrite actions_to_try_spec, List.map_map.
    rewrite (map_ext_in _ (fun i => i)).
    + rewrite List.map_id. apply List.NoDup_filter, cells_nodup.
    + intros i Hi. apply filter_In in Hi. simpl. now apply index_of_cell.
  - rewrite actions_to_try_spec, length_map.
    etransitivity; [apply filter_length_le | reflexivity].
Qed.

Lemma actions_to_try_are_the_legal_moves_new_game :
  mem world0 !! 0%nat = Some TicTacToe_state_new /\
  List.NoDup (actions_to_try TicTacToe_state_new) /\
  (length (actions_to_try TicTacToe_state_new) <= 9)%nat.
Proof.
  split; [reflexivity |].
  apply (actions_to_try_are_the_legal_moves world0 0%nat TicTacToe_state_new).
  reflexivity.
Defined.

(** X2: [TicTacToe_move::operator==] holds of two moves exactly when they
    are the same move. *)
Theorem TicTacToe_move_eq_iff (m o : TicTacToe_move) :
  TicTacToe_move_eq m o = true <-> m = o.
Proof.
  unfold TicTacToe_move_eq. rewrite !andb_true_iff, !Z.eqb_eq, ceq_eq.
  destruct m, o; simpl. split.
  - intros [[-> ->] ->]. reflexivity.
  - intros [= -> -> ->]. auto.
Qed.


(** *** Further properties: the end of a game *)

Lemma get_is_cell b m :
  in_board m = true -> get b (x m) (y m) = cell b (x m * 3 + y m).
Proof.
  intros H. destruct (in_board_index m H) as (_ & Hq & Hr).
  unfold cell. now rewrite Hq, Hr.
Qed.

(** A line a player holds stays hers when an empty cell is filled. *)
Lemma player_won_kept b i j c p :
  in_board (mkMove i j c) = true -> get b i j = " "%char -> p <> " "%char ->
  player_won b p = true -> player_won (set b i j c) p = true.
Proof.
  intros Hin Hfree Hp.
  assert (ceq " " p = false) as Hblank by (apply ceq_neq; congruence).
  destruct (in_board_cases _ Hin) as [Hi Hj]. simpl in Hi, Hj.
  destruct b as [c00 c01 c02 c10 c11 c12 c20 c21 c22].
  destruct Hi as [-> | [-> | ->]]; destruct Hj as [-> | [-> | ->]];
    simpl in Hfree;
    match type of Hfree with
    | ?f = _ => assert (ceq f p = false) as Hf by (rewrite Hfree; exact Hblank)
    end;
    unfold player_won; simpl; rewrite Hf;
    rewrite ?orb_true_iff, ?andb_true_iff; intuition congruence.
Qed.

(** X3: a terminal state has no successor that is not terminal.  When
    [next_state] accepts a move on a state that is terminal, the state it
    returns is terminal too, and a win of 'x' stays a win of 'x'; on a
    drawn state [next_state] accepts no move at all. *)
Theorem terminal_states_stay_terminal
        (w : World) (a : nat) (s : TicTacToe_state) (m : TicTacToe_move)
        (Hs : mem w !! a = Some s)
        (Hwinner : winner s = calculate_winner (board s))
        (Hin : in_board m = true)
        (Hterm : is_terminal s = true) :
  (forall q w', next_state (Addr a) m w = Ok (Addr q, w') ->
                exists s', mem w' !! q = Some s' /\ is_terminal s' = true /\
                           (winner s = "x"%char -> winner s' = "x"%char)) /\
  (winner s = "d"%char -> exists w', next_state (Addr a) m w = Ok (NULL, w')).
Proof.
  assert (in_board (mkMove (x m) (y m) (player m)) = true) as Hin' by (now destruct m).
  split.
  - intros q w' Hrun.
    destruct (Ascii.eqb_spec (get (board s) (x m) (y m)) " ") as [Hfree | Hocc];
      [| rewrite (next_state_occupied w a s m Hs Hin Hocc) in Hrun; discriminate].
    rewrite (next_state_legal w a s m Hs Hin Hfree) in Hrun.
    injection Hrun as <- <-. exists (play s m).
    split; [apply lookup_insert_eq |].
    unfold is_terminal in Hterm. apply negb_true_iff, ceq_neq in Hterm.
    rewrite Hwinner in Hterm |- *. unfold is_terminal, play, change_turn. simpl.
    set (b' := set (board s) (x m) (y m) (player m)).
    unfold calculate_winner in Hterm |- *.
    destruct (player_won (board s) "x") eqn:Hx.
    + assert (player_won b' "x" = true) as ->
          by (apply player_won_kept; [exact Hin' | exact Hfree | discriminate | exact Hx]).
      split; reflexivity.
    + destruct (player_won (board s) "o") eqn:Ho.
      * assert (player_won b' "o" = true) as ->
            by (apply player_won_kept; [exact Hin' | exact Hfree | discriminate | exact Ho]).
        destruct (player_won b' "x"); split; (reflexivity || discriminate).
      * destruct (forallb _ cells) eqn:Hall; [| congruence].
        exfalso. rewrite forallb_forall in Hall.
        destruct (in_board_index m Hin) as (Hi & _ & _).
        specialize (Hall _ Hi). apply negb_true_iff, ceq_neq in Hall.
        apply Hall. now rewrite <- get_is_cell.
  - intros Hdraw. eexists. apply next_state_occupied; [exact Hs | exact Hin |].
    intros Hfree. rewrite Hwinner in Hdraw. unfold calculate_winner in Hdraw.
    destruct (player_won (board s) "x"); [discriminate |].
    destruct (player_won (board s) "o"); [discriminate |].
    destruct (forallb _ cells) eqn:Hall; [| discriminate].
    rewrite forallb_forall in Hall.
    destruct (in_board_index m Hin) as (Hi & _ & _).
    specialize (Hall _ Hi). apply negb_true_iff, ceq_neq in Hall.
    apply Hall. now rewrite <- get_is_cell.
Qed.

Lemma terminal_states_stay_terminal_top_row :
  mem (mkWorld {[ 0%nat := top_row_won ]} [] []) !! 0%nat = Some top_row_won /\
  winner top_row_won = calculate_winner (board top_row_won) /\
  in_board (mkMove 2 2 "o") = true /\
  is_terminal top_row_won = true /\
  forall q w',
    next_state (Addr 0) (mkMove 2 2 "o") (mkWorld {[ 0%nat := top_row_won ]} [] [])
    = Ok (Addr q, w') ->
    exists s', mem w' !! q = Some s' /\ is_terminal s' = true /\
               (winner top_row_won = "x"%char -> winner s' = "x"%char).
Proof.
  split; [reflexivity |]. split; [reflexivity |].
  split; [reflexivity |]. split; [reflexivity |].
  apply (terminal_states_stay_terminal
           (mkWorld {[ 0%nat := top_row_won ]} [] []) 0%nat top_row_won (mkMove 2 2 "o"));
    reflexivity.
Defined.


(** *** Further properties: evaluate_move *)

Lemma try_move_and_delete w a s m :
  mem w !! a = Some s -> in_board m = true -> get (board s) (x m) (y m) = " "%char ->
  exists q w1,
    next_state (Addr a) m w = Ok (Addr q, w1) /\
    mem w1 !! q = Some (play s m) /\
    mem w1 !! a = Some s /\
    delete_ (Addr q) w1 = Ok (tt, w).
Proof.
  intros Hs Hin Hfree.
  exists (fresh (dom (mem w))), (with_mem w (<[fresh (dom (mem w)) := play s m]> (mem w))).
  pose proof (fresh_free (mem w)) as Hq.
  pose proof (fresh_other _ _ _ Hs) as Hne.
  split; [| split; [| split]].
  - now apply next_state_legal.
  - apply lookup_insert_eq.
  - simpl. now rewrite lookup_insert_ne.
  - erewrite delete_live by apply lookup_insert_eq.
    rewrite with_mem_twice. simpl. rewrite delete_insert_id by exact Hq.
    now rewrite with_mem_id.
Qed.

Lemma positional_value_cases pos :
  positional_value pos = centre_value \/ positional_value pos = corner_value \/
  positional_value pos = edge_value.
Proof.
  unfold positional_value. destruct (pos =? 4); [tauto |].
  destruct ((pos =? 0) || (pos =? 2) || (pos =? 6) || (pos =? 8)); tauto.
Qed.

(** X4: on a move that lies on the board and on an empty cell,
    [evaluate_move] returns with the world as it found it, both trial
    states deleted.  Its value lies in [0, 1]; it is 1.0 exactly when the
    move makes the player to move the winner; failing that it is 0.8
    exactly when the opponent would win on that cell; failing both it is
    the value of the position: 0.6, 0.4 or 0.2. *)
Theorem evaluate_move_on_free_cell
        (w : World) (a : nat) (s : TicTacToe_state) (m : TicTacToe_move)
        (Hs : mem w !! a = Some s) (Hin : in_board m = true)
        (Hfree : get (board s) (x m) (y m) = " "%char) :
  let opponent := if ceq (turn s) "x" then "o"%char else "x"%char in
  let blocked := play s (mkMove (x m) (y m) opponent) in
  exists v,
    evaluate_move (Addr a) m w = Ok (v, w) /\
    (0 <= v <= 1)%Q /\
    (v = winning_move_value <-> winner (play s m) = turn s) /\
    (winner (play s m) <> turn s ->
     (v = blocking_move_value <-> winner blocked = opponent) /\
     (winner blocked <> opponent -> v = positional_value (x m * 3 + y m))).
Proof.
  intros opponent blocked.
  destruct (try_move_and_delete w a s m Hs Hin Hfree) as (q & w1 & Hnext & Hq & Ha & Hdel).
  assert (in_board (mkMove (x m) (y m) opponent) = true) as Hin' by exact Hin.
  destruct (try_move_and_delete w a s (mkMove (x m) (y m) opponent) Hs Hin' Hfree)
    as (q' & w1' & Hnext' & Hq' & Ha' & Hdel').
  unfold evaluate_move.
  rewrite (bind_ok _ _ _ _ _ Hnext).
  rewrite (bind_ok _ _ _ _ _ (call_live winner _ _ _ Hq)).
  rewrite (bind_ok _ _ _ _ _ (call_live turn _ _ _ Ha)).
  destruct (ceq (winner (play s m)) (turn s)) eqn:Hwin.
  - apply ceq_eq in Hwin.
    rewrite (bind_ok _ _ _ _ _ Hdel). exists winning_move_value.
    split; [reflexivity |]. split; [split; discriminate |].
    split; [tauto | contradiction].
  - apply ceq_neq in Hwin.
    rewrite (bind_ok _ _ _ _ _ Hdel).
    rewrite (bind_ok _ _ _ _ _ (call_live turn _ _ _ Hs)).
    change (if ceq (turn s) "x" then "o"%char else "x"%char) with opponent.
    rewrite (bind_ok _ _ _ _ _ Hnext').
    rewrite (bind_ok _ _ _ _ _ (call_live winner _ _ _ Hq')).
    change (play s (mkMove (x m) (y m) opponent)) with blocked.
    destruct (ceq (winner blocked) opponent) eqn:Hblock.
    + apply ceq_eq in Hblock.
      rewrite (bind_ok _ _ _ _ _ Hdel'). exists blocking_move_value.
      split; [reflexivity |]. split; [split; discriminate |].
      split; [split; [discriminate | contradiction] |].
      intros _. split; [tauto | contradiction].
    + apply ceq_neq in Hblock.
      rewrite (bind_ok _ _ _ _ _ Hdel'). exists (positional_value (x m * 3 + y m)).
      split; [reflexivity |].
      destruct (positional_value_cases (x m * 3 + y m)) as [-> | [-> | ->]];
        (split; [split; discriminate |]);
        (split; [split; [discriminate | contradiction] |]);
        intros _; (split; [split; [discriminate | contradiction] | reflexivity]).
Qed.

Lemma evaluate_move_on_free_cell_centre :
  mem world0 !! 0%nat = Some TicTacToe_state_new /\
  in_board (mkMove 1 1 "x") = true /\
  get (board TicTacToe_state_new) 1 1 = " "%char /\
  exists v, evaluate_move (Addr 0) (mkMove 1 1 "x") world0 = Ok (v, world0) /\
            (0 <= v <= 1)%Q.
Proof.
  split; [reflexivity |]. split; [reflexivity |]. split; [reflexivity |].
  destruct (evaluate_move_on_free_cell world0 0%nat TicTacToe_state_new (mkMove 1 1 "x")
              ltac:(reflexivity) ltac:(reflexivity) ltac:(reflexivity))
    as (v & Hrun & Hrange & _).
  exists v. split; [exact Hrun | exact Hrange].
Defined.

(** X5: on a move whose cell is occupied, [evaluate_move] reads the
    winner of the null pointer [next_state] returned: the call faults. *)
Theorem evaluate_move_on_occupied_cell
        (w : World) (a : nat) (s : TicTacToe_state) (m : TicTacToe_move)
        (Hs : mem w !! a = Some s) (Hin : in_board m = true)
        (Hocc : get (board s) (x m) (y m) <> " "%char) :
  evaluate_move (Addr a) m w = Fault NullDeref.
Proof.
  unfold evaluate_move.
  now rewrite (bind_ok _ _ _ _ _ (next_state_occupied w a s m Hs Hin Hocc)).
Qed.

Lemma evaluate_move_on_occupied_cell_top_row :
  mem (mkWorld {[ 0%nat := top_row_won ]} [] []) !! 0%nat = Some top_row_won /\
  in_board (mkMove 0 0 "o") = true /\
  get (board top_row_won) 0 0 <> " "%char /\
  evaluate_move (Addr 0) (mkMove 0 0 "o") (mkWorld {[ 0%nat := top_row_won ]} [] [])
  = Fault NullDeref.
Proof.
  split; [reflexivity |]. split; [reflexivity |]. split; [discriminate |].
  apply (evaluate_move_on_occupied_cell
           (mkWorld {[ 0%nat := top_row_won ]} [] []) 0%nat top_row_won (mkMove 0 0 "o"));
    [reflexivity | reflexivity | discriminate].
Defined.


(** *** Further properties: evaluate_position *)

Lemma share_range (n d : nat) :
  (n <= d)%nat -> d <> 0%nat ->
  (0 <= inject_Z (Z.of_nat n) / inject_Z (Z.of_nat d) <= 1)%Q.
Proof.
  intros Hle Hd. destruct (Z.of_nat d) as [| pd |] eqn:Hpd; try lia.
  rewrite <- Qmake_Qdiv. unfold Qle. simpl. lia.
Qed.

(** X6: [evaluate_position] lies in [0, 1] on every state, and on a
    terminal state whose winner is the computed one it is the very value
    [rollout] returns there. *)
Theorem evaluate_position_range_and_terminal_value (s : TicTacToe_state) :
  (0 <= evaluate_position s <= 1)%Q /\
  (winner s = calculate_winner (board s) -> is_terminal s = true ->
   evaluate_position s = result_of s).
Proof.
  split.
  - unfold evaluate_position. destruct (is_terminal s).
    + destruct (ceq (winner s) "x"); [split; discriminate |].
      destruct (ceq (winner s) "o"); split; discriminate.
    + destruct (Nat.eqb_spec (count_winning_lines (board s) "x"
                              + count_winning_lines (board s) "o") 0) as [_ | Hne].
      * split; discriminate.
      * apply share_range; [lia | exact Hne].
  - intros Hw Hterm. unfold evaluate_position, result_of. rewrite Hterm.
    unfold is_terminal in Hterm. apply negb_true_iff, ceq_neq in Hterm.
    destruct (calculate_winner_cases (board s)) as [H | [H | [H | H]]];
      rewrite <- Hw in H; [| | | contradiction]; rewrite H; reflexivity.
Qed.

Lemma swap_piece_x c : ceq (swap_piece c) "x" = ceq c "o".
Proof.
  unfold swap_piece.
  destruct (ceq c "x") eqn:Hx; [apply ceq_eq in Hx; now subst |].
  destruct (ceq c "o") eqn:Ho; [reflexivity | exact Hx].
Qed.

Lemma swap_piece_o c : ceq (swap_piece c) "o" = ceq c "x".
Proof.
  unfold swap_piece.
  destruct (ceq c "x") eqn:Hx; [reflexivity |].
  destruct (ceq c "o") eqn:Ho; [apply ceq_eq in Ho; now subst | exact Ho].
Qed.

Lemma swap_piece_blank c : ceq (swap_piece c) " " = ceq c " ".
Proof.
  unfold swap_piece.
  destruct (ceq c "x") eqn:Hx; [apply ceq_eq in Hx; now subst |].
  destruct (ceq c "o") eqn:Ho; [apply ceq_eq in Ho; now subst | reflexivity].
Qed.

Lemma tally_swap_x pos counts :
  tally (swap_piece pos) "x" "o" counts = tally pos "o" "x" counts.
Proof. unfold tally. now rewrite swap_piece_x, swap_piece_o. Qed.

Lemma tally_swap_o pos counts :
  tally (swap_piece pos) "o" "x" counts = tally pos "x" "o" counts.
Proof. unfold tally. now rewrite swap_piece_x, swap_piece_o. Qed.

Lemma can_win_line_swap_x p1 p2 p3 :
  can_win_line (swap_piece p1) (swap_piece p2) (swap_piece p3) "x"
  = can_win_line p1 p2 p3 "o".
Proof.
  unfold can_win_line.
  change (if ceq "x" "x" then "o"%char else "x"%char) with "o"%char.
  change (if ceq "o" "x" then "o"%char else "x"%char) with "x"%char.
  now rewrite !tally_swap_x.
Qed.

Lemma can_win_line_swap_o p1 p2 p3 :
  can_win_line (swap_piece p1) (swap_piece p2) (swap_piece p3) "o"
  = can_win_line p1 p2 p3 "x".
Proof.
  unfold can_win_line.
  change (if ceq "x" "x" then "o"%char else "x"%char) with "o"%char.
  change (if ceq "o" "x" then "o"%char else "x"%char) with "x"%char.
  now rewrite !tally_swap_o.
Qed.

Lemma count_winning_lines_swap b :
  count_winning_lines (swap_board b) "x" = count_winning_lines b "o" /\
  count_winning_lines (swap_board b) "o" = count_winning_lines b "x".
Proof.
  destruct b as [c00 c01 c02 c10 c11 c12 c20 c21 c22].
  unfold count_winning_lines, swap_board.
  cbn [fold_left get b00 b01 b02 b10 b11 b12 b20 b21 b22].
  now rewrite !can_win_line_swap_x, !can_win_line_swap_o.
Qed.

Lemma share_complement (X O : nat) :
  (X + O)%nat <> 0%nat ->
  (inject_Z (Z.of_nat O) / inject_Z (Z.of_nat (O + X))
   == 1 - inject_Z (Z.of_nat X) / inject_Z (Z.of_nat (X + O)))%Q.
Proof.
  intros Hne. rewrite (Nat.add_comm O X).
  rewrite Nat2Z.inj_add, inject_Z_plus.
  assert (~ (inject_Z (Z.of_nat X) + inject_Z (Z.of_nat O) == 0)%Q) as Hnz.
  { rewrite <- inject_Z_plus, <- Nat2Z.inj_add. unfold Qeq. simpl. lia. }
  field. exact Hnz.
Qed.

(** X7: exchanging the two players reverses [evaluate_position].  The
    lines each player can still win change sides, a state is terminal
    exactly when the exchanged one is, a terminal state is worth one minus
    what the exchanged one is worth (1, 0 or 1/2), a state worth more than
    1/2 becomes one worth less and conversely, and of two states the one
    worth no more becomes the one worth no less.  (Between states that are
    not terminal only the order is stated: the value is a quotient of two
    line counts, which the code rounds.) *)
Theorem swapped_players_reverse_evaluation (s s' : TicTacToe_state) :
  count_winning_lines (board (swap_players s)) "x" = count_winning_lines (board s) "o" /\
  count_winning_lines (board (swap_players s)) "o" = count_winning_lines (board s) "x" /\
  is_terminal (swap_players s) = is_terminal s /\
  (is_terminal s = true ->
   (evaluate_position (swap_players s) == 1 - evaluate_position s)%Q) /\
  ((1 # 2 < evaluate_position s)%Q <-> (evaluate_position (swap_players s) < 1 # 2)%Q) /\
  ((evaluate_position s < 1 # 2)%Q <-> (1 # 2 < evaluate_position (swap_players s))%Q) /\
  ((evaluate_position s <= evaluate_position s')%Q <->
   (evaluate_position (swap_players s') <= evaluate_position (swap_players s))%Q).
Proof.
  assert (forall t, (evaluate_position (swap_players t) == 1 - evaluate_position t)%Q)
    as Hc.
  { intros t. unfold evaluate_position, is_terminal, swap_players. simpl.
    rewrite swap_piece_blank, swap_piece_x, swap_piece_o.
    destruct (count_winning_lines_swap (board t)) as [-> ->].
    destruct (negb (ceq (winner t) " ")).
    - destruct (ceq (winner t) "x") eqn:Hx.
      + apply ceq_eq in Hx. rewrite Hx. reflexivity.
      + destruct (ceq (winner t) "o"); reflexivity.
    - destruct (Nat.eqb_spec (count_winning_lines (board t) "x"
                              + count_winning_lines (board t) "o") 0) as [He | Hne].
      + rewrite Nat.add_comm, He. reflexivity.
      + rewrite (Nat.add_comm (count_winning_lines (board t) "o")).
        destruct (Nat.eqb_spec (count_winning_lines (board t) "x"
                                + count_winning_lines (board t) "o") 0) as [He | _];
          [contradiction |].
        rewrite <- (Nat.add_comm (count_winning_lines (board t) "o")) at 1.
        now apply share_complement. }
  pose proof (Hc s) as Hs. pose proof (Hc s') as Hs'.
  set (v := evaluate_position s) in *.
  set (v' := evaluate_position s') in *.
  set (w := evaluate_position (swap_players s)) in *.
  set (w' := evaluate_position (swap_players s')) in *.
  split; [apply (count_winning_lines_swap (board s)) |].
  split; [apply (count_winning_lines_swap (board s)) |].
  split.
  { unfold is_terminal, swap_players. simpl. now rewrite swap_piece_blank. }
  split; [intros _; exact Hs |].
  split; [split; intros Hlt; Lqa.lra |].
  split; split; intros Hlt; Lqa.lra.
Qed.

(** One 'x' on the centre: 'x' can still win 8 lines and 'o' 4, the state
    is worth more than 1/2 and the exchanged one less. *)
Example x_on_centre_evaluation :
  count_winning_lines (board x_on_centre) "x" = 8%nat /\
  count_winning_lines (board x_on_centre) "o" = 4%nat /\
  count_winning_lines (board (swap_players x_on_centre)) "x" = 4%nat /\
  (1 # 2 < evaluate_position x_on_centre)%Q /\
  (evaluate_position (swap_players x_on_centre) < 1 # 2)%Q.
Proof. repeat split. Qed.

(** *** Further properties: the pieces on the board *)

Lemma length_filter_sum {A} (f : A -> bool) (l : list A) :
  length (List.filter f l) = list_sum (List.map (fun i => if f i then 1%nat else 0%nat) l).
Proof.
  induction l as [| i l IH]; simpl; [reflexivity |].
  destruct (f i); simpl; now rewrite IH.
Qed.

Lemma pieces_after_move b a c p :
  In a cells -> cell b a = " "%char -> p <> " "%char ->
  pieces (set b (Z.quot a 3) (Z.rem a 3) c) p
  = (pieces b p + if ceq c p then 1 else 0)%nat.
Proof.
  intros Ha Hfree Hp.
  assert (ceq (cell b a) p = false) as Hblank
      by (rewrite Hfree; apply ceq_neq; congruence).
  unfold pieces. rewrite !length_filter_sum.
  destruct b as [c00 c01 c02 c10 c11 c12 c20 c21 c22].
  each_cell Ha; unfold cell in Hblank; simpl in Hblank;
    unfold cells, cell; cbn [List.map];
    repeat match goal with
           | |- context [Z.quot ?k 3] =>
               let v := eval vm_compute in (Z.quot k 3) in change (Z.quot k 3) with v
           | |- context [Z.rem ?k 3] =>
               let v := eval vm_compute in (Z.rem k 3) in change (Z.rem k 3) with v
           end;
    cbn [list_sum fold_right get set b00 b01 b02 b10 b11 b12 b20 b21 b22];
    rewrite Hblank; destruct (ceq c p); lia.
Qed.

Lemma in_turns_play s a :
  in_turns s -> In a cells -> cell (board s) a = " "%char ->
  in_turns (play s (move_at a (turn s))).
Proof.
  intros Hturns Ha Hfree. unfold in_turns, play, change_turn, move_at. simpl.
  rewrite !pieces_after_move by (assumption || discriminate).
  destruct Hturns as [[Ht Hn] | [Ht Hn]]; rewrite Ht, Hn.
  - right. split; [reflexivity |].
    change (ceq "x" "x") with true. change (ceq "x" "o") with false. cbv iota. lia.
  - left. split; [reflexivity |].
    change (ceq "o" "x") with false. change (ceq "o" "o") with true. cbv iota. lia.
Qed.

Lemma playout_in_turns s t : in_turns s -> playout s t -> in_turns t.
Proof.
  intros Hturns Hplay.
  induction Hplay as [s | s a t Hrun Ha Hfree Hplay IH]; [exact Hturns |].
  apply IH. now apply in_turns_play.
Qed.

(** X8: [next_state] keeps the two players in step.  If the pieces of a
    state are in turns -- as many 'o' as 'x' when 'x' is to move, one less
    when 'o' is, as in the new game -- and [next_state] accepts a move of
    the player to move, the pieces of the state it returns are in turns
    again. *)
Theorem next_state_keeps_players_in_turns
        (w : World) (a : nat) (s : TicTacToe_state) (m : TicTacToe_move)
        (q : nat) (w' : World)
        (Hs : mem w !! a = Some s) (Hturns : in_turns s)
        (Hin : in_board m = true) (Hplayer : player m = turn s)
        (Hrun : next_state (Addr a) m w = Ok (Addr q, w')) :
  exists s', mem w' !! q = Some s' /\ in_turns s'.
Proof.
  destruct (Ascii.eqb_spec (get (board s) (x m) (y m)) " ") as [Hfree | Hocc];
    [| rewrite (next_state_occupied w a s m Hs Hin Hocc) in Hrun; discriminate].
  rewrite (next_state_legal w a s m Hs Hin Hfree) in Hrun.
  injection Hrun as <- <-. exists (play s m).
  split; [apply lookup_insert_eq |].
  destruct (in_board_index m Hin) as (Hi & Hq & Hr).
  assert (m = move_at (x m * 3 + y m) (turn s)) as ->
      by (unfold move_at; rewrite Hq, Hr, <- Hplayer; now destruct m).
  apply in_turns_play; [exact Hturns | exact Hi |].
  rewrite get_is_cell in Hfree by exact Hin. exact Hfree.
Qed.

Lemma next_state_keeps_players_in_turns_centre :
  mem world0 !! 0%nat = Some TicTacToe_state_new /\
  in_turns TicTacToe_state_new /\
  in_board (mkMove 1 1 "x") = true /\
  player (mkMove 1 1 "x") = turn TicTacToe_state_new /\
  exists q w',
    next_state (Addr 0) (mkMove 1 1 "x") world0 = Ok (Addr q, w') /\
    exists s', mem w' !! q = Some s' /\ in_turns s'.
Proof.
  split; [reflexivity |]. split; [left; split; reflexivity |].
  split; [reflexivity |]. split; [reflexivity |].
  eexists _, _. split; [vm_compute; reflexivity |].
  eapply (next_state_keeps_players_in_turns world0 0%nat TicTacToe_state_new
            (mkMove 1 1 "x")).
  - reflexivity.
  - left; split; reflexivity.
  - reflexivity.
  - reflexivity.
  - vm_compute. reflexivity.
Defined.


(** *** Further properties: the heuristic *)

Lemma world_eq w w' :
  mem w' = mem w -> gen_rollout w' = gen_rollout w -> gen_best w' = gen_best w ->
  w' = w.
Proof. destruct w, w'. simpl. now intros -> -> ->. Qed.

Lemma winning_position_find a s who c positions w :
  mem w !! a = Some s ->
  (forall w', mem w' !! a = Some s -> who w' = Ok (c, w')) ->
  (forall pos, In pos positions -> In pos cells /\ cell (board s) pos = " "%char) ->
  winning_position (Addr a) who positions w = Ok (List.find (wins_at s c) positions, w).
Proof.
  intros Hs Hwho. induction positions as [| pos rest IH]; intros Hfree; [reflexivity |].
  destruct (Hfree pos (or_introl eq_refl)) as [Hpos Hcell].
  destruct (try_and_delete w a s pos c Hs Hpos Hcell)
    as (q & w1 & Hnext & Hq & Ha & _ & _ & Hdel).
  cbn [winning_position List.find].
  rewrite (bind_ok _ _ _ _ _ (Hwho w Hs)).
  rewrite (bind_ok _ _ _ _ _ Hnext).
  rewrite (bind_ok _ _ _ _ _ (call_live winner _ _ _ Hq)).
  rewrite (bind_ok _ _ _ _ _ (Hwho w1 Ha)).
  unfold wins_at at 1. destruct (ceq _ c).
  - now rewrite (bind_ok _ _ _ _ _ Hdel).
  - rewrite (bind_ok _ _ _ _ _ Hdel). apply IH.
    intros p Hp. apply Hfree. now right.
Qed.

Lemma find_best_takes_win w a s available best :
  mem w !! a = Some s ->
  (forall pos, In pos available -> In pos cells /\ cell (board s) pos = " "%char) ->
  List.find (wins_at s (turn s)) available = Some best ->
  find_best_heuristic_move (Addr a) available w = Ok (best, w).
Proof.
  intros Hs Hfree Hfind. unfold find_best_heuristic_move.
  rewrite (bind_ok _ _ _ _ _
             (winning_position_find a s (call turn (Addr a)) (turn s) available w Hs
                (fun w' Hw' => call_live turn w' a s Hw') Hfree)).
  now rewrite Hfind.
Qed.

(** X9: the priorities of [find_best_heuristic_move].  Given the empty
    cells still available, it returns the first of them on which the
    player to move wins; if there is none, the first on which the opponent
    would win; if there is none, the centre when it is available; if not,
    the first of the corners 0, 2, 6, 8 that is.  In all these cases the
    world is left as it was: every trial state is deleted and no random
    number is drawn.  Only when nothing of this applies does it draw, and
    then it still returns an available cell. *)
Theorem find_best_heuristic_move_priorities
        (w : World) (a : nat) (s : TicTacToe_state) (available : list Z)
        (Hs : mem w !! a = Some s)
        (Hne : available <> [])
        (Hfree : forall pos, In pos available ->
                             In pos cells /\ cell (board s) pos = " "%char) :
  match List.find (wins_at s (turn s)) available with
  | Some pos => find_best_heuristic_move (Addr a) available w = Ok (pos, w)
  | None =>
      match List.find (wins_at s (opponent_of s)) available with
      | Some pos => find_best_heuristic_move (Addr a) available w = Ok (pos, w)
      | None =>
          if mem_pos 4 available
          then find_best_heuristic_move (Addr a) available w = Ok (4, w)
          else
            match List.find (fun corner => mem_pos corner available) corners with
            | Some corner =>
                find_best_heuristic_move (Addr a) available w = Ok (corner, w)
            | None =>
                exists best w',
                  find_best_heuristic_move (Addr a) available w = Ok (best, w') /\
                  In best available /\ mem w' = mem w /\
                  gen_rollout w' = gen_rollout w
            end
      end
  end.
Proof.
  unfold find_best_heuristic_move.
  rewrite (bind_ok _ _ _ _ _
             (winning_position_find a s (call turn (Addr a)) (turn s) available w Hs
                (fun w' Hw' => call_live turn w' a s Hw') Hfree)).
  destruct (List.find (wins_at s (turn s)) available) as [pos |]; [reflexivity |].
  rewrite (bind_ok _ _ _ _ _ (call_live turn _ _ _ Hs)).
  change (if ceq (turn s) "x" then "o"%char else "x"%char) with (opponent_of s).
  rewrite (bind_ok _ _ _ _ _
             (winning_position_find a s (ret (opponent_of s)) (opponent_of s) available w Hs
                (fun w' _ => eq_refl) Hfree)).
  destruct (List.find (wins_at s (opponent_of s)) available) as [pos |]; [reflexivity |].
  destruct (mem_pos 4 available); [reflexivity |].
  destruct (List.find _ corners) as [corner |]; [reflexivity |].
  destruct (pick_in_range available (gen_best w) Hne) as [b [Hb Hin]].
  unfold bind, dis_best.
  destruct (Nat.eqb_spec (length available) 0) as [Hz | _].
  { destruct available; [congruence | discriminate]. }
  destruct (draw (gen_best w) (length available)) as [r g] eqn:Hd.
  simpl in Hb. rewrite Hb.
  eexists b, _. split; [reflexivity |]. split; [exact Hin |]. split; reflexivity.
Qed.

Lemma find_best_heuristic_move_priorities_new_game :
  mem world0 !! 0%nat = Some TicTacToe_state_new /\
  available_of TicTacToe_state_new <> [] /\
  find_best_heuristic_move (Addr 0) (available_of TicTacToe_state_new) world0
  = Ok (4, world0).
Proof.
  split; [reflexivity |]. split; [discriminate |].
  apply (find_best_heuristic_move_priorities world0 0%nat TicTacToe_state_new
           (available_of TicTacToe_state_new)).
  - reflexivity.
  - discriminate.
  - intros pos Hpos. now apply (proj2 (available_of_spec TicTacToe_state_new)).
Defined.

(** X10: [heuristic_rollout] takes a win that is one move away.  On a
    state that is not terminal and in which the player to move can win by
    playing one empty cell, it returns 1.0 when that player is 'x' and 0.0
    when it is 'o', and leaves the world as it found it. *)
Theorem heuristic_rollout_takes_immediate_win
        (w : World) (a : nat) (s : TicTacToe_state) (pos : Z)
        (Hs : mem w !! a = Some s) (Hwf : wf s)
        (Hrun : is_terminal s = false)
        (Hpos : In pos cells) (Hfree : cell (board s) pos = " "%char)
        (Hwin : wins_at s (turn s) pos = true) :
  heuristic_rollout (Addr a) w
  = Ok ((if ceq (turn s) "x" then 1%Q else 0%Q), w).
Proof.
  pose proof (available_of_spec s) as Hav.
  assert (In pos (available_of s)) as Hin by (now apply (proj2 Hav)).
  assert (available_of s <> []) as Hne by (intros Hnil; rewrite Hnil in Hin; contradiction).
  destruct (List.find (wins_at s (turn s)) (available_of s)) as [best |] eqn:Hfind;
    [| apply (find_none _ _ Hfind) in Hin; congruence].
  pose proof (find_best_takes_win w a s (available_of s) best Hs
                (fun p Hp => proj1 (proj2 Hav p) Hp) Hfind) as Hbest.
  apply find_some in Hfind. destruct Hfind as [Hbin Hbwin].
  destruct (proj1 (proj2 Hav best) Hbin) as [Hbcell Hbfree].
  assert (heap_at (mem w) true a s (mem w)) as Hat by (split; [reflexivity | exact Hs]).
  destruct (step_memory _ _ _ _ _ best (turn s) Hat Hbcell Hbfree)
    as (q & w1 & w2 & Hnext & Hold & Hat2 & Hgr & Hgb).
  pose proof (heap_at_live _ _ _ _ _ Hat2) as Hq.
  unfold heuristic_rollout.
  rewrite (bind_ok _ _ _ _ _ (deref_live _ _ _ Hs)). rewrite Hrun.
  cbn [heuristic_loop].
  destruct (available_of s) as [| a0 rest] eqn:Heq; [congruence |]. rewrite <- Heq in *.
  rewrite (bind_ok _ _ _ _ _ Hbest).
  rewrite (bind_ok _ _ _ _ _ (call_live turn _ _ _ Hs)).
  rewrite (bind_ok _ _ _ _ _ Hnext).
  rewrite (bind_ok _ _ _ _ _ Hold).
  rewrite (bind_ok _ _ _ _ _ (call_live is_terminal _ _ _ Hq)).
  set (nxt := play s (move_at best (turn s))) in *.
  unfold wins_at in Hbwin. fold nxt in Hbwin. apply ceq_eq in Hbwin.
  assert (is_terminal nxt = true) as ->.
  { unfold is_terminal. rewrite Hbwin. apply negb_true_iff, ceq_neq.
    now apply wf_turn_not_blank. }
  change (negb true) with false. cbv iota.
  rewrite (bind_ok _ _ _ _ _ (call_live result_of _ _ _ Hq)).
  rewrite (bind_ok _ _ _ _ _ (leave_memory _ _ _ _ Hat2)).
  unfold ret. f_equal. f_equal.
  - unfold result_of. rewrite Hbwin.
    destruct (proj2 Hwf) as [-> | ->]; reflexivity.
  - apply world_eq; simpl; congruence.
Qed.

Lemma heuristic_rollout_takes_immediate_win_example :
  mem (world_of x_to_win) !! 0%nat = Some x_to_win /\ wf x_to_win /\
  is_terminal x_to_win = false /\
  In 2 cells /\ cell (board x_to_win) 2 = " "%char /\
  wins_at x_to_win (turn x_to_win) 2 = true /\
  heuristic_rollout (Addr 0) (world_of x_to_win) = Ok (1%Q, world_of x_to_win).
Proof.
  split; [reflexivity |]. split; [split; [reflexivity | left; reflexivity] |].
  split; [reflexivity |]. split; [unfold cells; simpl; tauto |].
  split; [reflexivity |]. split; [reflexivity |].
  apply (heuristic_rollout_takes_immediate_win (world_of x_to_win) 0%nat x_to_win 2).
  - reflexivity.
  - split; [reflexivity | left; reflexivity].
  - reflexivity.
  - unfold cells; simpl; tauto.
  - reflexivity.
  - reflexivity.
Defined.


(** *** Further properties: printing *)

Lemma digits_have_no_comma d : has_comma (NilEmpty.string_of_uint d) = false.
Proof. induction d; simpl; auto. Qed.

Lemma to_string_has_no_comma z : has_comma (to_string z) = false.
Proof.
  unfold to_string, NilZero.string_of_int, NilZero.string_of_uint.
  destruct (Z.to_int z) as [d | d]; destruct d; simpl;
    auto using digits_have_no_comma.
Qed.

Lemma to_int_not_nil z : Z.to_int z <> Pos Nil /\ Z.to_int z <> Neg Nil.
Proof.
  split; intros Hz; pose proof (f_equal Z.of_int Hz) as Hz'; rewrite of_to in Hz';
    simpl in Hz'; subst z; vm_compute in Hz; discriminate.
Qed.

Lemma to_string_inj z z' : to_string z = to_string z' -> z = z'.
Proof.
  unfold to_string. intros Heq. apply to_int_inj.
  destruct (to_int_not_nil z) as [Hp Hn]. destruct (to_int_not_nil z') as [Hp' Hn'].
  pose proof (NilZero.isi _ Hp Hn) as H1. pose proof (NilZero.isi _ Hp' Hn') as H2.
  rewrite Heq in H1. congruence.
Qed.

(** Two texts that agree up to the first comma and after it. *)
Lemma split_at_comma (s s' r r' : string) :
  has_comma s = false -> has_comma s' = false ->
  (s ++ "," ++ r)%string = (s' ++ "," ++ r')%string -> s = s' /\ r = r'.
Proof.
  revert s'. induction s as [| c s IH]; intros [| c' s'] Hs Hs' Heq;
    cbn [has_comma String.append] in Hs, Hs', Heq.
  - injection Heq as Heq. now split.
  - injection Heq as Hc _. apply orb_false_iff in Hs'. destruct Hs' as [Hc' _].
    rewrite <- Hc in Hc'. discriminate.
  - injection Heq as Hc _. apply orb_false_iff in Hs. destruct Hs as [Hc' _].
    rewrite Hc in Hc'. discriminate.
  - apply orb_false_iff in Hs, Hs'. injection Heq as Hc Hrest.
    destruct (IH s' (proj2 Hs) (proj2 Hs') Hrest) as [Hss Hrr].
    split; congruence.
Qed.

(** X13: [sprint] tells moves apart: two moves with the same text are the
    same move. *)
Theorem sprint_tells_moves_apart (m o : TicTacToe_move) :
  sprint m = sprint o -> m = o.
Proof.
  unfold sprint. simpl. intros [= Heq].
  destruct (split_at_comma _ _ _ _ (to_string_has_no_comma _) (to_string_has_no_comma _) Heq)
    as [Hx Hrest].
  destruct (split_at_comma _ _ _ _ (to_string_has_no_comma _) (to_string_has_no_comma _) Hrest)
    as [Hy Hp].
  injection Hp as Hp. apply to_string_inj in Hx, Hy.
  destruct m, o. simpl in *. congruence.
Qed.

Lemma sprint_tells_moves_apart_centre :
  sprint (mkMove 1 1 "x") = "(1,1,x)"%string /\
  sprint (mkMove 1 1 "x") = sprint (mkMove 1 1 "x") /\
  mkMove 1 1 "x" = mkMove 1 1 "x".
Proof.
  split; [reflexivity |]. split; [reflexivity |].
  apply (sprint_tells_moves_apart (mkMove 1 1 "x") (mkMove 1 1 "x")). reflexivity.
Defined.


(** *** Further properties: the heuristic and evaluate_move agree *)

Lemma evaluate_move_value w a s pos :
  mem w !! a = Some s -> In pos cells -> cell (board s) pos = " "%char ->
  evaluate_move (Addr a) (move_at pos (turn s)) w = Ok (move_value s pos, w).
Proof.
  intros Hs Hpos Hfree.
  destruct (try_and_delete w a s pos (turn s) Hs Hpos Hfree)
    as (q & w1 & Hnext & Hq & Ha & _ & _ & Hdel).
  destruct (try_and_delete w a s pos (opponent_of s) Hs Hpos Hfree)
    as (q' & w1' & Hnext' & Hq' & Ha' & _ & _ & Hdel').
  unfold evaluate_move, move_value.
  rewrite (bind_ok _ _ _ _ _ Hnext).
  rewrite (bind_ok _ _ _ _ _ (call_live winner _ _ _ Hq)).
  rewrite (bind_ok _ _ _ _ _ (call_live turn _ _ _ Ha)).
  change (ceq (winner (play s (move_at pos (turn s)))) (turn s))
    with (wins_at s (turn s) pos).
  destruct (wins_at s (turn s) pos).
  - now rewrite (bind_ok _ _ _ _ _ Hdel).
  - rewrite (bind_ok _ _ _ _ _ Hdel).
    rewrite (bind_ok _ _ _ _ _ (call_live turn _ _ _ Hs)).
    change (if ceq (turn s) "x" then "o"%char else "x"%char) with (opponent_of s).
    change (mkMove (x (move_at pos (turn s))) (y (move_at pos (turn s))) (opponent_of s))
      with (move_at pos (opponent_of s)).
    rewrite (bind_ok _ _ _ _ _ Hnext').
    rewrite (bind_ok _ _ _ _ _ (call_live winner _ _ _ Hq')).
    change (ceq (winner (play s (move_at pos (opponent_of s)))) (opponent_of s))
      with (wins_at s (opponent_of s) pos).
    destruct (wins_at s (opponent_of s) pos); rewrite (bind_ok _ _ _ _ _ Hdel').
    + reflexivity.
    + unfold ret. simpl. now rewrite index_of_cell.
Qed.

Lemma mem_pos_in pos available : In pos available -> mem_pos pos available = true.
Proof.
  intros H. unfold mem_pos. apply existsb_exists. exists pos.
  split; [exact H | apply Z.eqb_refl].
Qed.

Lemma positional_value_le_centre pos : (positional_value pos <= centre_value)%Q.
Proof.
  destruct (positional_value_cases pos) as [-> | [-> | ->]]; discriminate.
Qed.

Lemma move_value_le_one s pos : (move_value s pos <= winning_move_value)%Q.
Proof.
  unfold move_value. destruct (wins_at s (turn s) pos); [discriminate |].
  destruct (wins_at s (opponent_of s) pos); [discriminate |].
  destruct (positional_value_cases pos) as [-> | [-> | ->]]; discriminate.
Qed.

(** X17: [find_best_heuristic_move] and [evaluate_move] agree.  The cell
    the heuristic returns is one that [evaluate_move] values highest among
    the available cells: no available cell gets a greater value as a move
    of the player to move. *)
Theorem find_best_heuristic_move_maximizes_evaluate_move
        (w : World) (a : nat) (s : TicTacToe_state) (available : list Z)
        (Hs : mem w !! a = Some s)
        (Hne : available <> [])
        (Hfree : forall pos, In pos available ->
                             In pos cells /\ cell (board s) pos = " "%char) :
  exists best w' v,
    find_best_heuristic_move (Addr a) available w = Ok (best, w') /\
    In best available /\
    evaluate_move (Addr a) (move_at best (turn s)) w = Ok (v, w) /\
    forall pos, In pos available ->
                exists v', evaluate_move (Addr a) (move_at pos (turn s)) w = Ok (v', w) /\
                           (v' <= v)%Q.
Proof.
  assert (forall best w',
             find_best_heuristic_move (Addr a) available w = Ok (best, w') ->
             In best available ->
             (forall pos, In pos available -> (move_value s pos <= move_value s best)%Q) ->
             exists best w' v,
               find_best_heuristic_move (Addr a) available w = Ok (best, w') /\
               In best available /\
               evaluate_move (Addr a) (move_at best (turn s)) w = Ok (v, w) /\
               forall pos, In pos available ->
                           exists v', evaluate_move (Addr a) (move_at pos (turn s)) w
                                      = Ok (v', w) /\ (v' <= v)%Q) as Hwrap.
  { intros best w' Hrun Hin Hmax. exists best, w', (move_value s best).
    split; [exact Hrun |]. split; [exact Hin |].
    destruct (Hfree best Hin) as [Hc Hf].
    split; [now apply evaluate_move_value |].
    intros pos Hpos. destruct (Hfree pos Hpos) as [Hc' Hf'].
    exists (move_value s pos). split; [now apply evaluate_move_value | now apply Hmax]. }
  unfold find_best_heuristic_move in *.
  rewrite (bind_ok _ _ _ _ _
             (winning_position_find a s (call turn (Addr a)) (turn s) available w Hs
                (fun w' Hw' => call_live turn w' a s Hw') Hfree)) in *.
  destruct (List.find (wins_at s (turn s)) available) as [best |] eqn:Hwin.
  { apply find_some in Hwin. destruct Hwin as [Hin Hbest].
    apply (Hwrap best w eq_refl Hin). intros pos _.
    unfold move_value at 2. rewrite Hbest. apply move_value_le_one. }
  pose proof (find_none _ _ Hwin) as Hnowin.
  rewrite (bind_ok _ _ _ _ _ (call_live turn _ _ _ Hs)) in *.
  change (if ceq (turn s) "x" then "o"%char else "x"%char) with (opponent_of s) in *.
  rewrite (bind_ok _ _ _ _ _
             (winning_position_find a s (ret (opponent_of s)) (opponent_of s) available w Hs
                (fun w' _ => eq_refl) Hfree)) in *.
  destruct (List.find (wins_at s (opponent_of s)) available) as [best |] eqn:Hblock.
  { apply find_some in Hblock. destruct Hblock as [Hin Hbest].
    apply (Hwrap best w eq_refl Hin). intros pos Hpos.
    unfold move_value. rewrite (Hnowin _ Hin), (Hnowin _ Hpos), Hbest.
    destruct (wins_at s (opponent_of s) pos); [discriminate |].
    destruct (positional_value_cases pos) as [-> | [-> | ->]]; discriminate. }
  pose proof (find_none _ _ Hblock) as Hnoblock.
  assert (forall pos, In pos available -> move_value s pos = positional_value pos) as Hval.
  { intros pos Hpos. unfold move_value. now rewrite (Hnowin _ Hpos), (Hnoblock _ Hpos). }
  destruct (mem_pos 4 available) eqn:Hcentre.
  { apply (Hwrap 4 w eq_refl (in_mem_pos _ _ Hcentre)). intros pos Hpos.
    rewrite (Hval _ Hpos), (Hval _ (in_mem_pos _ _ Hcentre)).
    apply positional_value_le_centre. }
  assert (forall pos, In pos available -> (pos =? 4) = false) as Hnot4.
  { intros pos Hpos. destruct (Z.eqb_spec pos 4) as [-> | _]; [| reflexivity].
    rewrite (mem_pos_in _ _ Hpos) in Hcentre. discriminate. }
  destruct (List.find _ corners) as [corner |] eqn:Hcorner.
  { apply find_some in Hcorner. destruct Hcorner as [Hcin Hcav].
    pose proof (in_mem_pos _ _ Hcav) as Hin.
    apply (Hwrap corner w eq_refl Hin). intros pos Hpos.
    rewrite (Hval _ Hpos), (Hval _ Hin). unfold positional_value.
    rewrite (Hnot4 _ Hpos), (Hnot4 _ Hin).
    assert ((corner =? 0) || (corner =? 2) || (corner =? 6) || (corner =? 8) = true) as ->.
    { unfold corners in Hcin. simpl in Hcin.
      destruct Hcin as [<- | [<- | [<- | [<- | []]]]]; reflexivity. }
    destruct ((pos =? 0) || (pos =? 2) || (pos =? 6) || (pos =? 8)); discriminate. }
  pose proof (find_none _ _ Hcorner) as Hnocorner.
  assert (forall pos, In pos available -> positional_value pos = edge_value) as Hedge.
  { intros pos Hpos. unfold positional_value. rewrite (Hnot4 _ Hpos).
    destruct ((pos =? 0) || (pos =? 2) || (pos =? 6) || (pos =? 8)) eqn:Hc;
      [| reflexivity].
    exfalso. rewrite !orb_true_iff, !Z.eqb_eq in Hc.
    assert (In pos corners) as Hin by (unfold corners; simpl; intuition).
    specialize (Hnocorner pos Hin). simpl in Hnocorner.
    rewrite (mem_pos_in _ _ Hpos) in Hnocorner. discriminate. }
  destruct (pick_in_range available (gen_best w) Hne) as [b [Hb Hin]].
  unfold bind, dis_best in *.
  destruct (Nat.eqb_spec (length available) 0) as [Hz | _].
  { destruct available; [congruence | discriminate]. }
  destruct (draw (gen_best w) (length available)) as [r g] eqn:Hd.
  simpl in Hb. rewrite Hb in *.
  eapply (Hwrap b _ eq_refl Hin). intros pos Hpos.
  rewrite (Hval _ Hpos), (Hval _ Hin), (Hedge _ Hpos), (Hedge _ Hin). discriminate.
Qed.

Lemma find_best_heuristic_move_maximizes_evaluate_move_example :
  mem (world_of x_to_win) !! 0%nat = Some x_to_win /\
  available_of x_to_win <> [] /\
  exists best w' v,
    find_best_heuristic_move (Addr 0) (available_of x_to_win) (world_of x_to_win)
    = Ok (best, w') /\
    In best (available_of x_to_win) /\
    evaluate_move (Addr 0) (move_at best (turn x_to_win)) (world_of x_to_win)
    = Ok (v, world_of x_to_win) /\
    forall pos, In pos (available_of x_to_win) ->
                exists v', evaluate_move (Addr 0) (move_at pos (turn x_to_win))
                                         (world_of x_to_win)
                           = Ok (v', world_of x_to_win) /\
                           (v' <= v)%Q.
Proof.
  split; [reflexivity |]. split; [discriminate |].
  apply (find_best_heuristic_move_maximizes_evaluate_move
           (world_of x_to_win) 0%nat x_to_win (available_of x_to_win)).
  - reflexivity.
  - discriminate.
  - intros pos Hpos. now apply (proj2 (available_of_spec x_to_win)).
Defined.

End TicTacToeFacts.
(* ===================================================================== *)
(** ** Rollout: proofs                                                   *)
(* ===================================================================== *)

Module RolloutFacts.
Import Rollout MemoryFacts.

Lemma Qlt_bool_iff a b : Qlt_bool a b = true <-> (a < b)%Q.
Proof.
  unfold Qlt_bool. rewrite negb_true_iff. split.
  - intros Hb. apply Qnot_le_lt. intros Hle. apply Qle_bool_iff in Hle. congruence.
  - intros Hlt. destruct (Qle_bool b a) eqn:Hb; [| reflexivity].
    apply Qle_bool_iff in Hb. exfalso. exact (Qlt_not_le _ _ Hlt Hb).
Qed.

Lemma quotient_lt_one r m : 0 < m -> 0 <= r ->
  ((inject_Z r / inject_Z m < 1)%Q <-> r < m).
Proof.
  intros Hm Hr. destruct m as [| pm |]; try lia.
  rewrite <- Qmake_Qdiv. unfold Qlt. simpl. lia.
Qed.

Lemma quotient_nonneg r m : 0 < m -> 0 <= r -> (0 <= inject_Z r / inject_Z m)%Q.
Proof.
  intros Hm Hr. destruct m as [| pm |]; try lia.
  rewrite <- Qmake_Qdiv. unfold Qle. simpl. lia.
Qed.

Section RolloutJob.

Context {State W : Type} `{MCTS_state State W}.
Variable RAND_MAX : Z.
Hypothesis RAND_MAX_min : 32767 <= RAND_MAX.
Implicit Types (p : Process W) (t : thread) (state : State).

Lemma rand_spec p :
  exists r, rand RAND_MAX p = Ok (r, drawn p) /\ 0 <= r <= RAND_MAX /\
            r = match c_rand p with
                | [] => 0
                | n :: _ => n mod (RAND_MAX + 1)
                end.
Proof.
  unfold rand, drawn. destruct p as [[| n g] ratio u]; simpl.
  - exists 0. split; [reflexivity |]. split; [lia | reflexivity].
  - eexists. split; [reflexivity |]. split; [| reflexivity].
    pose proof (Z.mod_pos_bound n (RAND_MAX + 1)). lia.
Qed.

Lemma run_mixed_unfold t state p r :
  rand RAND_MAX p = Ok (r, drawn p) ->
  run RAND_MAX t state MIXED p
  = if Qlt_bool (inject_Z r / inject_Z RAND_MAX) (heuristic_ratio p)
    then in_user (heuristic_rollout t state) (drawn p)
    else in_user (rollout t state) (drawn p).
Proof.
  intros Hr. unfold run. rewrite (bind_ok _ _ _ _ _ Hr).
  unfold bind, get_heuristic_ratio, gets. simpl.
  now destruct (Qlt_bool _ _).
Qed.

(** The parts of C2 that hold: the strategies other than Mixed, Mixed
    with ratio 0, and Mixed with ratio 1 whenever [rand()] stays below
    [RAND_MAX]. *)
Lemma run_fixed_strategies t state p :
  run RAND_MAX t state HEURISTIC p = in_user (heuristic_rollout t state) p /\
  run RAND_MAX t state HEAVY p = in_user (heuristic_rollout t state) p /\
  run RAND_MAX t state RANDOM p = in_user (rollout t state) p.
Proof. repeat split. Qed.

Lemma run_mixed_ratio_zero t state p :
  (heuristic_ratio p == 0)%Q ->
  run RAND_MAX t state MIXED p = in_user (rollout t state) (drawn p).
Proof.
  intros Hratio. destruct (rand_spec p) as [r [Hr [Hrange _]]].
  rewrite (run_mixed_unfold _ _ _ _ Hr).
  destruct (Qlt_bool _ _) eqn:Hlt; [| reflexivity].
  apply Qlt_bool_iff in Hlt. rewrite Hratio in Hlt.
  exfalso. apply (Qlt_not_le _ _ Hlt). apply quotient_nonneg; lia.
Qed.

Lemma run_mixed_ratio_one_below t state p n g :
  (heuristic_ratio p == 1)%Q ->
  c_rand p = n :: g ->
  n mod (RAND_MAX + 1) < RAND_MAX ->
  run RAND_MAX t state MIXED p = in_user (heuristic_rollout t state) (drawn p).
Proof.
  intros Hratio Hg Hbelow. destruct (rand_spec p) as [r [Hr [Hrange Hval]]].
  rewrite Hg in Hval. rewrite (run_mixed_unfold _ _ _ _ Hr).
  destruct (Qlt_bool _ _) eqn:Hlt; [reflexivity |].
  assert (Qlt_bool (inject_Z r / inject_Z RAND_MAX) (heuristic_ratio p) = true) as Hyes.
  { apply Qlt_bool_iff. rewrite Hratio. apply quotient_lt_one; lia. }
  congruence.
Qed.

(** C2, where it fails: under Mixed with ratio 1 the simulation runs
    [rollout], not [heuristic_rollout], whenever [rand()] returns
    [RAND_MAX]: the quotient is then 1, and 1 < 1 is false. *)
Theorem run_mixed_ratio_one_at_RAND_MAX t state p g :
  (heuristic_ratio p == 1)%Q ->
  c_rand p = RAND_MAX :: g ->
  run RAND_MAX t state MIXED p = in_user (rollout t state) (drawn p).
Proof.
  intros Hratio Hg. destruct (rand_spec p) as [r [Hr [Hrange Hval]]].
  rewrite Hg in Hval. rewrite Z.mod_small in Hval by lia.
  rewrite (run_mixed_unfold _ _ _ _ Hr).
  destruct (Qlt_bool _ _) eqn:Hlt; [| reflexivity].
  apply Qlt_bool_iff in Hlt. rewrite Hratio in Hlt.
  pose proof (proj1 (quotient_lt_one r RAND_MAX ltac:(lia) ltac:(lia)) Hlt). lia.
Qed.

(** Whichever thread runs a Mixed job, its draw is the next number of the
    one generator of the process, and the job leaves that generator one
    step further for every other thread. *)
Lemma run_mixed_draws_from_process t state p :
  exists r,
    rand RAND_MAX p = Ok (r, drawn p) /\
    run RAND_MAX t state MIXED p
    = (if Qlt_bool (inject_Z r / inject_Z RAND_MAX) (heuristic_ratio p)
       then in_user (heuristic_rollout t state)
       else in_user (rollout t state)) (drawn p).
Proof.
  destruct (rand_spec p) as [r [Hr _]]. exists r. split; [exact Hr |].
  rewrite (run_mixed_unfold _ _ _ _ Hr). now destruct (Qlt_bool _ _).
Qed.

End RolloutJob.

(** The failing draw on a TicTacToe game, with the [RAND_MAX] of glibc. *)
Lemma run_mixed_ratio_one_at_RAND_MAX_tictactoe :
  32767 <= glibc_RAND_MAX /\
  (heuristic_ratio at_RAND_MAX == 1)%Q /\
  c_rand at_RAND_MAX = [glibc_RAND_MAX] /\
  run glibc_RAND_MAX 1%nat (TicTacToe.Addr 0) MIXED at_RAND_MAX
  = in_user (rollout 1%nat (TicTacToe.Addr 0)) (drawn at_RAND_MAX).
Proof.
  split; [discriminate |]. split; [reflexivity |]. split; [reflexivity |].
  apply (run_mixed_ratio_one_at_RAND_MAX glibc_RAND_MAX ltac:(discriminate)
           1%nat (TicTacToe.Addr 0) at_RAND_MAX []); reflexivity.
Defined.

(** There the two simulations differ, so the job stores the value of
    [rollout], which is not the one [heuristic_rollout] would give. *)
Example simulations_differ_on_new_game :
  value_of (run glibc_RAND_MAX 1%nat (TicTacToe.Addr 0) MIXED at_RAND_MAX) = Some 1%Q /\
  value_of (run glibc_RAND_MAX 1%nat (TicTacToe.Addr 0) HEURISTIC at_RAND_MAX)
  = Some (1 # 2)%Q.
Proof. split; vm_compute; reflexivity. Qed.

(** The simulations of TicTacToe do draw from generators of the thread
    that runs them: those of every other thread stay as they are. *)
Lemma on_thread_keeps_other_generators {A} (t u : thread) (c : M TicTacToe.World A)
      pl a pl' :
  on_thread t c pl = Ok (a, pl') -> u <> t -> gens_of pl' u = gens_of pl u.
Proof.
  unfold on_thread. destruct (c _) as [[a' w] | f]; [| discriminate].
  intros [= <- <-] Hne. unfold gens_of. simpl.
  now rewrite lookup_insert_ne by congruence.
Qed.

(** C7, where it fails: the draw of a Mixed job comes from [rand()], the
    one generator of the process.  With ratio 1/2 and [rand()] about to
    return 0 and then [RAND_MAX], a job run by thread 2 calls
    [heuristic_rollout]; run after a job of thread 1 it calls [rollout]
    instead, because thread 1 has taken the 0 -- although the generators
    that are local to thread 2 are as they were. *)
Theorem mixed_draw_shared_between_workers :
  run glibc_RAND_MAX 2%nat (TicTacToe.Addr 0) MIXED two_draws
  = in_user (heuristic_rollout 2%nat (TicTacToe.Addr 0)) (drawn two_draws) /\
  exists v1 p1,
    run glibc_RAND_MAX 1%nat (TicTacToe.Addr 0) MIXED two_draws = Ok (v1, p1) /\
    c_rand two_draws = [0; glibc_RAND_MAX] /\
    c_rand p1 = [glibc_RAND_MAX] /\
    gens_of (user p1) 2%nat = gens_of (user two_draws) 2%nat /\
    run glibc_RAND_MAX 2%nat (TicTacToe.Addr 0) MIXED p1
    = in_user (rollout 2%nat (TicTacToe.Addr 0)) (drawn p1) /\
    value_of (run glibc_RAND_MAX 2%nat (TicTacToe.Addr 0) MIXED two_draws)
    = Some (1 # 2)%Q /\
    value_of (run glibc_RAND_MAX 2%nat (TicTacToe.Addr 0) MIXED p1) = Some 1%Q.
Proof.
  split; [vm_compute; reflexivity |].
  destruct (run glibc_RAND_MAX 1%nat (TicTacToe.Addr 0) MIXED two_draws)
    as [[v1 p1] | f] eqn:Hrun; [| vm_compute in Hrun; discriminate].
  exists v1, p1. split; [reflexivity |].
  vm_compute in Hrun. injection Hrun as <- <-.
  repeat split; vm_compute; reflexivity.
Qed.


(** *** Further properties *)

(** A Mixed job calls [rand()] once and then one of the two
    simulations. *)
Lemma run_mixed_calls {State W : Type} `{MCTS_state State W} (RAND_MAX : Z)
      (t : thread) (state : State) (p : Process W) :
  exists heuristic : bool,
    run RAND_MAX t state MIXED p
    = (if heuristic
       then in_user (heuristic_rollout t state)
       else in_user (rollout t state)) (drawn p).
Proof.
  assert (exists r, rand RAND_MAX p = Ok (r, drawn p)) as [r Hr].
  { unfold rand, drawn. destruct p as [[| n g] ratio u]; simpl; eauto. }
  exists (Qlt_bool (inject_Z r / inject_Z RAND_MAX) (heuristic_ratio p)).
  unfold run. rewrite (bind_ok _ _ _ _ _ Hr).
  unfold bind, get_heuristic_ratio, gets. simpl.
  now destruct (Qlt_bool _ _).
Qed.

(** X11: for a game that does not override [heuristic_rollout], the
    strategy makes no difference to what is simulated: under every
    strategy the job stores the value of [rollout].  Mixed still calls
    [rand()] once before. *)
Theorem run_without_heuristic_is_rollout {State W : Type}
        (simulate : thread -> State -> M W Q) (RAND_MAX : Z)
        (t : thread) (state : State) (strategy : RolloutStrategy) (p : Process W) :
  @run State W (MCTS_state_default simulate) RAND_MAX t state strategy p
  = in_user (simulate t state)
            (match strategy with
             | MIXED => drawn p
             | _ => p
             end).
Proof.
  destruct strategy; try reflexivity.
  destruct (@run_mixed_calls State W (MCTS_state_default simulate) RAND_MAX t state p)
    as [heuristic ->].
  now destruct heuristic.
Qed.

Section Ratio.

Context {State W : Type} `{MCTS_state State W}.
Variable RAND_MAX : Z.
Hypothesis RAND_MAX_min : 32767 <= RAND_MAX.
Implicit Types (p : Process W) (t : thread) (state : State).

Lemma quotient_le_one r : 0 <= r <= RAND_MAX ->
  (inject_Z r / inject_Z RAND_MAX <= 1)%Q.
Proof.
  intros Hr. destruct RAND_MAX as [| pm |] eqn:Hm; try lia.
  rewrite <- Qmake_Qdiv. unfold Qle. simpl. lia.
Qed.

(** X12: where the ratio leaves a Mixed job no choice.  A ratio of 0 or
    less sends every job to [rollout] and a ratio above 1 sends every job
    to [heuristic_rollout], whatever [rand()] returns.  When [rand()]
    returns 0, any ratio above 0 sends the job to [heuristic_rollout]; when
    it returns [RAND_MAX], any ratio up to 1 sends it to [rollout].  (The
    quotient is then 0 or 1, or is compared with a ratio outside its range:
    the double and the rational comparison agree.) *)
Theorem mixed_choice_at_the_ends t state p :
  ((heuristic_ratio p <= 0)%Q ->
   run RAND_MAX t state MIXED p = in_user (rollout t state) (drawn p)) /\
  ((1 < heuristic_ratio p)%Q ->
   run RAND_MAX t state MIXED p = in_user (heuristic_rollout t state) (drawn p)) /\
  (forall g, c_rand p = 0 :: g -> (0 < heuristic_ratio p)%Q ->
             run RAND_MAX t state MIXED p
             = in_user (heuristic_rollout t state) (drawn p)) /\
  (forall g, c_rand p = RAND_MAX :: g -> (heuristic_ratio p <= 1)%Q ->
             run RAND_MAX t state MIXED p = in_user (rollout t state) (drawn p)).
Proof.
  destruct (rand_spec RAND_MAX RAND_MAX_min p) as [r [Hr [Hrange Hval]]].
  rewrite (run_mixed_unfold RAND_MAX t state p r Hr).
  split; [| split; [| split]].
  - intros Hratio.
    destruct (Qlt_bool _ _) eqn:Hlt; [| reflexivity].
    apply Qlt_bool_iff in Hlt. exfalso. apply (Qlt_not_le _ _ Hlt).
    apply (Qle_trans _ 0); [exact Hratio | apply quotient_nonneg; lia].
  - intros Hratio.
    assert (Qlt_bool (inject_Z r / inject_Z RAND_MAX) (heuristic_ratio p) = true) as ->;
      [| reflexivity].
    apply Qlt_bool_iff.
    apply (Qle_lt_trans _ 1); [now apply quotient_le_one | exact Hratio].
  - intros g Hg Hratio. rewrite Hg in Hval. rewrite Z.mod_0_l in Hval by lia.
    assert (Qlt_bool (inject_Z r / inject_Z RAND_MAX) (heuristic_ratio p) = true) as ->;
      [| reflexivity].
    apply Qlt_bool_iff. subst r.
    apply (Qle_lt_trans _ 0); [| exact Hratio].
    destruct RAND_MAX as [| pm |] eqn:Hm; try lia.
    rewrite <- Qmake_Qdiv. unfold Qle. simpl. lia.
  - intros g Hg Hratio. rewrite Hg in Hval. rewrite Z.mod_small in Hval by lia.
    destruct (Qlt_bool _ _) eqn:Hlt; [| reflexivity].
    apply Qlt_bool_iff in Hlt. exfalso. apply (Qlt_not_le _ _ Hlt).
    apply (Qle_trans _ 1); [exact Hratio |]. subst r.
    destruct RAND_MAX as [| pm |] eqn:Hm; try lia.
    rewrite <- Qmake_Qdiv. unfold Qle. simpl. lia.
Qed.

End Ratio.

Lemma mixed_choice_at_the_ends_example :
  32767 <= glibc_RAND_MAX /\
  (1 < heuristic_ratio above_one)%Q /\
  run glibc_RAND_MAX 1%nat (TicTacToe.Addr 0) MIXED above_one
  = in_user (heuristic_rollout 1%nat (TicTacToe.Addr 0)) (drawn above_one).
Proof.
  split; [discriminate |]. split; [reflexivity |].
  apply (mixed_choice_at_the_ends glibc_RAND_MAX ltac:(discriminate)
           1%nat (TicTacToe.Addr 0) above_one).
  reflexivity.
Defined.


(** *** Further properties: jobs on TicTacToe states *)

Lemma on_thread_simulation (sim : TicTacToe.ptr -> M TicTacToe.World Q) :
  (forall w a s,
      TicTacToe.mem w !! a = Some s -> TicTacToe.wf s ->
      exists v w', sim (TicTacToe.Addr a) w = Ok (v, w') /\
                   TicTacToe.mem w' = TicTacToe.mem w /\
                   TicTacToe.simulation_result s w v w') ->
  forall t pl a s,
    heap pl !! a = Some s -> TicTacToe.wf s ->
    exists v pl', on_thread t (sim (TicTacToe.Addr a)) pl = Ok (v, pl') /\
                  heap pl' = heap pl /\
                  (v = 0%Q \/ v = (1 # 2)%Q \/ v = 1%Q).
Proof.
  intros Hsim t pl a s Hs Hwf. unfold on_thread.
  destruct (Hsim (TicTacToe.mkWorld (heap pl) (fst (gens_of pl t)) (snd (gens_of pl t)))
              a s Hs Hwf) as (v & w' & -> & Hmem & Hres & _).
  eexists v, _. split; [reflexivity |]. split; [exact Hmem | exact Hres].
Qed.

Lemma in_user_result {W A} (c : M W A) (p : Process W) a u :
  c (user p) = Ok (a, u) ->
  in_user c p = Ok (a, mkProcess (c_rand p) (heuristic_ratio p) u).
Proof. unfold in_user. now intros ->. Qed.

(** X16: a job on a TicTacToe state always delivers.  Under every
    strategy, on every thread and whatever [rand()] and the generators of
    the thread produce, [run] stores 0, 0.5 or 1, and returns with the
    memory of states and the ratio as they were. *)
Theorem run_on_tictactoe_state
        (RAND_MAX : Z) (t : thread) (a : nat) (s : TicTacToe.TicTacToe_state)
        (strategy : RolloutStrategy) (p : Process Pool)
        (Hs : heap (user p) !! a = Some s) (Hwf : TicTacToe.wf s) :
  exists v p',
    run RAND_MAX t (TicTacToe.Addr a) strategy p = Ok (v, p') /\
    (v = 0%Q \/ v = (1 # 2)%Q \/ v = 1%Q) /\
    heap (user p') = heap (user p) /\
    heuristic_ratio p' = heuristic_ratio p.
Proof.
  assert (forall (p0 : Process Pool) (heuristic : bool),
             heap (user p0) = heap (user p) ->
             exists v p',
               in_user (if heuristic then heuristic_rollout t (TicTacToe.Addr a)
                        else rollout t (TicTacToe.Addr a)) p0 = Ok (v, p') /\
               (v = 0%Q \/ v = (1 # 2)%Q \/ v = 1%Q) /\
               heap (user p') = heap (user p) /\
               heuristic_ratio p' = heuristic_ratio p0) as Hcall.
  { intros p0 heuristic Hheap. rewrite <- Hheap in Hs.
    destruct heuristic; simpl.
    - destruct (on_thread_simulation TicTacToe.heuristic_rollout
                  TicTacToeFacts.heuristic_rollout_spec t (user p0) a s Hs Hwf)
        as (v & pl' & Hrun & Hmem & Hv).
      eexists v, _. split; [apply (in_user_result _ _ _ _ Hrun) |].
      split; [exact Hv |]. split; [simpl; congruence | reflexivity].
    - destruct (on_thread_simulation TicTacToe.rollout
                  TicTacToeFacts.rollout_spec t (user p0) a s Hs Hwf)
        as (v & pl' & Hrun & Hmem & Hv).
      eexists v, _. split; [apply (in_user_result _ _ _ _ Hrun) |].
      split; [exact Hv |]. split; [simpl; congruence | reflexivity]. }
  destruct strategy.
  - exact (Hcall p false eq_refl).
  - exact (Hcall p true eq_refl).
  - destruct (run_mixed_calls RAND_MAX t (TicTacToe.Addr a) p) as [heuristic ->].
    destruct (Hcall (drawn p) heuristic eq_refl)
      as (v & p' & Hrun & Hv & Hheap & Hratio).
    exists v, p'. split; [| auto].
    rewrite <- Hrun. now destruct heuristic.
  - exact (Hcall p true eq_refl).
Qed.

Lemma run_on_tictactoe_state_new_game :
  heap (user two_draws) !! 0%nat = Some TicTacToe.TicTacToe_state_new /\
  TicTacToe.wf TicTacToe.TicTacToe_state_new /\
  exists v p',
    run glibc_RAND_MAX 1%nat (TicTacToe.Addr 0) MIXED two_draws = Ok (v, p') /\
    (v = 0%Q \/ v = (1 # 2)%Q \/ v = 1%Q) /\
    heap (user p') = heap (user two_draws) /\
    heuristic_ratio p' = heuristic_ratio two_draws.
Proof.
  split; [reflexivity |]. split; [split; [reflexivity | left; reflexivity] |].
  apply (run_on_tictactoe_state glibc_RAND_MAX 1%nat 0%nat
           TicTacToe.TicTacToe_state_new MIXED two_draws).
  - reflexivity.
  - split; [reflexivity | left; reflexivity].
Defined.

End RolloutFacts.
(* ===================================================================== *)
(** ** Selection: proofs                                                 *)
(* ===================================================================== *)

Module SelectionFacts.
Import Selection.

Section SelectBestChild.

Variable c : R.
Variable self_visits : nat.
Variable self_side_turn : bool.

Local Abbreviation U := (U c self_visits self_side_turn).
Local Abbreviation select_best_child := (select_best_child c self_visits self_side_turn).

Lemma first_unvisited_some (children : list child) i j :
  first_unvisited children i = Some j ->
  exists k ch,
    j = (i + k)%nat /\ children !! k = Some ch /\ visits ch = 0%nat /\
    forall k' ch', (k' < k)%nat -> children !! k' = Some ch' -> visits ch' <> 0%nat.
Proof.
  revert i. induction children as [| ch rest IH]; intros i; simpl; [discriminate |].
  destruct (Nat.eqb_spec (visits ch) 0) as [Hz | Hnz].
  - intros [= <-]. exists 0%nat, ch. split; [lia |]. split; [reflexivity |].
    split; [exact Hz |]. intros k' ch' Hk'. lia.
  - intros Hrest. destruct (IH _ Hrest) as (k & chk & -> & Hk & Hv & Hbefore).
    exists (S k), chk. split; [lia |]. split; [exact Hk |]. split; [exact Hv |].
    intros [| k'] ch' Hlt; simpl.
    + intros [= <-]. exact Hnz.
    + apply Hbefore. lia.
Qed.

Lemma first_unvisited_none (children : list child) i :
  first_unvisited children i = None ->
  forall k ch, children !! k = Some ch -> visits ch <> 0%nat.
Proof.
  revert i. induction children as [| ch rest IH]; intros i; simpl.
  - intros _ k ch'. discriminate.
  - destruct (Nat.eqb_spec (visits ch) 0) as [Hz | Hnz]; [discriminate |].
    intros Hrest [| k] ch'; simpl.
    + intros [= <-]. exact Hnz.
    + now apply (IH _ Hrest).
Qed.

Local Abbreviation earliest_max := (earliest_max c self_visits self_side_turn).

Lemma best_from_earliest_max (rest : list child) :
  forall seen b max,
    earliest_max seen b max ->
    exists max', earliest_max (seen ++ rest) (best_from c self_visits self_side_turn
                                                rest (length seen) b max) max'.
Proof.
  induction rest as [| ch rest IH]; intros seen b max Hinv; simpl.
  - exists max. now rewrite app_nil_r.
  - destruct Hinv as [(chb & Hb & Hmax) Hall].
    pose proof (lookup_lt_Some _ _ _ Hb) as Hblt.
    assert (length (seen ++ [ch]) = S (length seen)) as Hlen
        by (rewrite length_app; simpl; lia).
    replace (seen ++ ch :: rest) with ((seen ++ [ch]) ++ rest)
      by (now rewrite <- app_assoc).
    rewrite <- Hlen.
    destruct (Rlt_dec max (U ch)) as [Hlt | Hge]; apply IH.
    + split.
      * exists ch. split; [| reflexivity]. now rewrite list_lookup_middle.
      * intros k chk Hk. destruct (decide (k < length seen)%nat) as [Hin | Hout].
        -- rewrite lookup_app_l in Hk by exact Hin.
           destruct (Hall k chk Hk) as [Hle _]. split; [lra | intros _; lra].
        -- pose proof (lookup_lt_Some _ _ _ Hk) as Hklt. rewrite Hlen in Hklt.
           assert (k = length seen) as -> by lia.
           rewrite list_lookup_middle in Hk by reflexivity.
           injection Hk as <-. split; [lra | lia].
    + split.
      * exists chb. split; [| exact Hmax]. now rewrite lookup_app_l.
      * intros k chk Hk. destruct (decide (k < length seen)%nat) as [Hin | Hout].
        -- rewrite lookup_app_l in Hk by exact Hin. now apply Hall.
        -- pose proof (lookup_lt_Some _ _ _ Hk) as Hklt. rewrite Hlen in Hklt.
           assert (k = length seen) as -> by lia.
           rewrite list_lookup_middle in Hk by reflexivity.
           injection Hk as <-. split; [lra | lia].
Qed.

(** C5: on a node with at least one child, if some child has no visit,
    [select_best_child] returns the child of lowest index among those
    with no visit, so never a sibling with positive visits; if every child
    has been visited, it returns a child of greatest UCT score, and every
    child before it has a strictly smaller score. *)
Theorem select_best_child_prefers_unvisited (children : list child)
        (Hchildren : children <> []) :
  exists i ch,
    select_best_child children = Some i /\ children !! i = Some ch /\
    ((exists k chk, children !! k = Some chk /\ visits chk = 0%nat) ->
     visits ch = 0%nat /\
     forall k chk, (k < i)%nat -> children !! k = Some chk -> visits chk <> 0%nat) /\
    ((forall k chk, children !! k = Some chk -> visits chk <> 0%nat) ->
     forall k chk, children !! k = Some chk ->
                   (U chk <= U ch)%R /\ ((k < i)%nat -> (U chk < U ch)%R)).
Proof.
  destruct children as [| first rest]; [congruence |]. clear Hchildren.
  unfold Selection.select_best_child.
  destruct (first_unvisited (first :: rest) 0) as [j |] eqn:Hfirst.
  - destruct (first_unvisited_some _ _ _ Hfirst) as (k & ch & -> & Hk & Hv & Hbefore).
    exists k, ch. split; [reflexivity |]. split; [exact Hk |]. split.
    + intros _. split; [exact Hv | exact Hbefore].
    + intros Hall. now destruct (Hall k ch Hk).
  - pose proof (first_unvisited_none _ _ Hfirst) as Hvisited.
    destruct (best_from_earliest_max rest [first] 0%nat (U first)) as [max' Hinv].
    { split; [exists first; split; reflexivity |].
      intros [| k] chk; simpl; [| discriminate].
      intros [= <-]. split; [lra | lia]. }
    simpl in Hinv. destruct Hinv as [(chb & Hb & Hmax) Hall].
    eexists _, chb. split; [reflexivity |]. split; [exact Hb |]. split.
    + intros (k & chk & Hk & Hz). now destruct (Hvisited k chk Hk).
    + intros _ k chk Hk. rewrite Hmax. now apply Hall.
Qed.

End SelectBestChild.

Lemma select_best_child_prefers_unvisited_example :
  two_unvisited <> [] /\
  exists i ch,
    select_best_child (sqrt 2) 3 true two_unvisited = Some i /\
    two_unvisited !! i = Some ch /\
    ((exists k chk, two_unvisited !! k = Some chk /\ visits chk = 0%nat) ->
     visits ch = 0%nat /\
     forall k chk, (k < i)%nat -> two_unvisited !! k = Some chk -> visits chk <> 0%nat) /\
    ((forall k chk, two_unvisited !! k = Some chk -> visits chk <> 0%nat) ->
     forall k chk, two_unvisited !! k = Some chk ->
                   (U (sqrt 2) 3 true chk <= U (sqrt 2) 3 true ch)%R /\
                   ((k < i)%nat -> (U (sqrt 2) 3 true chk < U (sqrt 2) 3 true ch)%R)).
Proof.
  split; [discriminate |].
  apply (select_best_child_prefers_unvisited (sqrt 2) 3 true two_unvisited).
  discriminate.
Defined.

(** The second child is the one selected: it is the first with no visit. *)
Example select_best_child_two_unvisited :
  select_best_child (sqrt 2) 3 true two_unvisited = Some 1%nat.
Proof. reflexivity. Qed.

End SelectionFacts.
(* ===================================================================== *)
(** ** Contract: proofs                                                  *)
(* ===================================================================== *)

Module ContractFacts.
Import Contract.

(** The part of C6 that holds: the contract has [is_self_side_turn] as
    its one turn operation, and the two state classes of
    pybind/py_wrappers.h implement the contract with it. *)
Lemma contract_has_one_turn_operation :
  turn_operations MCTS_state = ["is_self_side_turn"%string] /\
  declares_as is_pure MCTS_state "is_self_side_turn" = true /\
  turn_operations PyMCTS_state = ["is_self_side_turn"%string] /\
  implements MCTS_state PyMCTS_state = true /\
  turn_operations SerializedPythonState = ["is_self_side_turn"%string] /\
  implements MCTS_state SerializedPythonState = true.
Proof. repeat split. Qed.

(** C6, where it fails: the TicTacToe state of TicTacToe.h and the
    trampoline of the second py_wrappers.h declare [player1_turn] and not
    [is_self_side_turn].  Neither implements the contract: each marks
    [player1_turn] as an override of a method the contract does not have,
    and leaves [is_self_side_turn] and [clone] pure. *)
Theorem player1_turn_still_declared :
  turn_operations TicTacToe_state = ["player1_turn"%string] /\
  declares TicTacToe_state "is_self_side_turn" = false /\
  overrides_exist MCTS_state TicTacToe_state = false /\
  concrete MCTS_state TicTacToe_state = false /\
  turn_operations PyMCTS_state_get_override = ["player1_turn"%string] /\
  declares PyMCTS_state_get_override "is_self_side_turn" = false /\
  overrides_exist MCTS_state PyMCTS_state_get_override = false /\
  concrete MCTS_state PyMCTS_state_get_override = false.
Proof. repeat split. Qed.

End ContractFacts.
(* ===================================================================== *)
(** ** PyWrappers: proofs                                                *)
(* ===================================================================== *)

Module PyWrappersFacts.
Import PyWrappers.

Section Conversions.
Context {move_ptr : Type}.
Implicit Types (q : queue move_ptr) (v : vector move_ptr).

Lemma drain_app q v : drain q v = v ++ q.
Proof.
  revert v. induction q as [| m q IH]; intros v; simpl.
  - now rewrite app_nil_r.
  - rewrite IH. unfold push_back. now rewrite <- app_assoc.
Qed.

Lemma fold_push v q : fold_left push v q = q ++ v.
Proof.
  revert q. induction v as [| m v IH]; intros q; simpl.
  - now rewrite app_nil_r.
  - rewrite IH. unfold push. now rewrite <- app_assoc.
Qed.

(** C10: [queue_to_vector] of the null pointer is the empty vector, and
    [queue_to_vector (vector_to_queue v)] is [v]: the same pointers in the
    same order.  Each conversion on its own keeps the sequence as well. *)
Theorem queue_to_vector_vector_to_queue :
  queue_to_vector (None : option (queue move_ptr)) = [] /\
  (forall v, queue_to_vector (vector_to_queue v) = v) /\
  (forall q, queue_to_vector (Some q) = q) /\
  (forall v, vector_to_queue v = Some v).
Proof.
  split; [reflexivity |]. split; [| split].
  - intros v. unfold vector_to_queue, queue_to_vector.
    now rewrite drain_app, fold_push.
  - intros q. unfold queue_to_vector. now rewrite drain_app.
  - intros v. unfold vector_to_queue. now rewrite fold_push.
Qed.

End Conversions.

Section Serialized.
Context {object : Type} `{Interpreter object}.

(** C8: [SerializedPythonState::next_state] never returns null, for
    every move.  The Python object handed to the callback is the one a
    wrapper holds, or else the one [py::cast] makes of the move.  Whenever
    the callback throws -- and also when the cast does -- the state
    returned wraps the Python state of the receiver, unchanged; when the
    callback returns, the state returned wraps what it returned. *)
Theorem next_state_never_null (this : SerializedPythonState object) (m : move object) :
  (exists st, next_state this m = Some st) /\
  (forall py_move e,
      m = PythonMoveWrapper py_move ->
      call_next_state (python_state this) py_move = Thrown e ->
      next_state this m = Some (SerializedPythonState_new (python_state this))) /\
  (forall py_move e,
      (forall o, m <> PythonMoveWrapper o) ->
      cast_move m = Returned py_move ->
      call_next_state (python_state this) py_move = Thrown e ->
      next_state this m = Some (SerializedPythonState_new (python_state this))) /\
  (forall e,
      (forall py_move, m <> PythonMoveWrapper py_move) ->
      cast_move m = Thrown e ->
      next_state this m = Some (SerializedPythonState_new (python_state this))) /\
  (forall py_move new_py_state,
      m = PythonMoveWrapper py_move ->
      call_next_state (python_state this) py_move = Returned new_py_state ->
      next_state this m = Some (SerializedPythonState_new new_py_state)) /\
  (forall py_move new_py_state,
      (forall o, m <> PythonMoveWrapper o) ->
      cast_move m = Returned py_move ->
      call_next_state (python_state this) py_move = Returned new_py_state ->
      next_state this m = Some (SerializedPythonState_new new_py_state)).
Proof.
  split; [| split; [| split; [| split; [| split]]]].
  - unfold next_state.
    destruct m as [| python_move | id]; simpl.
    + destruct (cast_move null_move) as [py_move | e]; simpl; [| eauto].
      destruct (call_next_state _ py_move); simpl; eauto.
    + destruct (call_next_state _ python_move); simpl; eauto.
    + destruct (cast_move (other_move id)) as [py_move | e]; simpl; [| eauto].
      destruct (call_next_state _ py_move); simpl; eauto.
  - intros py_move e -> Hcall. unfold next_state. simpl. now rewrite Hcall.
  - intros py_move e Hm Hcast Hcall. unfold next_state.
    destruct m as [| python_move | id]; simpl.
    + now rewrite Hcast; simpl; rewrite Hcall.
    + now destruct (Hm python_move).
    + now rewrite Hcast; simpl; rewrite Hcall.
  - intros e Hm Hcast. unfold next_state.
    destruct m as [| python_move | id]; simpl.
    + now rewrite Hcast.
    + now destruct (Hm python_move).
    + now rewrite Hcast.
  - intros py_move new_py_state -> Hcall. unfold next_state. simpl. now rewrite Hcall.
  - intros py_move new_py_state Hm Hcast Hcall. unfold next_state.
    destruct m as [| python_move | id]; simpl.
    + now rewrite Hcast; simpl; rewrite Hcall.
    + now destruct (Hm python_move).
    + now rewrite Hcast; simpl; rewrite Hcall.
Qed.

End Serialized.

(** A move that is no wrapper, cast with success, on a game that raises:
    the state returned still wraps the receiver's Python state. *)
Example next_state_of_raising_game :
  @next_state nat raising_game (SerializedPythonState_new 7%nat) (other_move 3)
  = Some (SerializedPythonState_new 7%nat) /\
  @next_state nat raising_game (SerializedPythonState_new 7%nat) null_move
  = Some (SerializedPythonState_new 7%nat).
Proof. split; reflexivity. Qed.

(** With a game that raises on every call, [next_state] hands back the
    receiver's Python state in a new wrapper. *)
Example next_state_of_failing_game :
  @next_state nat failing_game (SerializedPythonState_new 7%nat) (PythonMoveWrapper 3%nat)
  = Some (SerializedPythonState_new 7%nat) /\
  @next_state nat failing_game (SerializedPythonState_new 7%nat) null_move
  = Some (SerializedPythonState_new 7%nat).
Proof. split; reflexivity. Qed.


(** *** Further properties *)

Section SerializedMethods.

Context {object : Type} `{Interpreter object} `{Callbacks object}.

Lemma fill_queue_and_cache (py_moves : list object) (q : queue (move object)) cache :
  fold_left (fun qc item =>
               (push (fst qc) (PythonMoveWrapper item), snd qc ++ [item]))
            py_moves (q, cache)
  = (q ++ List.map PythonMoveWrapper py_moves, cache ++ py_moves).
Proof.
  revert q cache. induction py_moves as [| item rest IH]; intros q cache; simpl.
  - now rewrite !app_nil_r.
  - rewrite IH. unfold push. now rewrite <- !app_assoc.
Qed.

(** X14: the moves of a Python game make the round trip.  When the
    Python [actions_to_try] returns a list, the queue holds one wrapper
    per element, in the order of the list, and the receiver caches the
    list and keeps its Python state; handing the i-th move of the queue
    back to [next_state] calls the Python [next_state] with the i-th
    element of the list.  When the Python call throws, the queue is empty
    and the receiver, cache included, is as before. *)
Theorem actions_to_try_round_trip (this : SerializedPythonState object) :
  (forall py_moves,
      call_actions_to_try (python_state this) = Returned py_moves ->
      fst (actions_to_try this) = List.map PythonMoveWrapper py_moves /\
      py_actions_to_try this = List.map PythonMoveWrapper py_moves /\
      cached_python_moves (snd (actions_to_try this)) = py_moves /\
      python_state (snd (actions_to_try this)) = python_state this /\
      forall i item,
        py_moves !! i = Some item ->
        exists m,
          fst (actions_to_try this) !! i = Some m /\
          next_state (snd (actions_to_try this)) m
          = Some (SerializedPythonState_new
                    (try_catch (call_next_state (python_state this) item)
                               (fun _ => python_state this)))) /\
  (forall e,
      call_actions_to_try (python_state this) = Thrown e ->
      actions_to_try this = ([], this)).
Proof.
  split.
  - intros py_moves Hcall.
    assert (actions_to_try this
            = (List.map PythonMoveWrapper py_moves,
               mkSerialized (python_state this) py_moves)) as Hrun.
    { unfold actions_to_try. rewrite Hcall. simpl.
      now rewrite fill_queue_and_cache. }
    unfold py_actions_to_try. rewrite Hrun. simpl.
    split; [reflexivity |].
    split; [apply drain_app |].
    split; [reflexivity |]. split; [reflexivity |].
    intros i item Hi. exists (PythonMoveWrapper item).
    split; [now rewrite list_lookup_fmap, Hi |].
    unfold next_state. simpl.
    now destruct (call_next_state (python_state this) item).
  - intros e Hcall. unfold actions_to_try. now rewrite Hcall.
Qed.


End SerializedMethods.


(** In the game of counters the two moves come back in order, and the
    second one leads from 7 to 9. *)
Example counting_game_moves :
  @py_actions_to_try nat counting_callbacks (SerializedPythonState_new 7%nat)
  = [PythonMoveWrapper 1%nat; PythonMoveWrapper 2%nat] /\
  @next_state nat counting_game (SerializedPythonState_new 7%nat) (PythonMoveWrapper 2%nat)
  = Some (SerializedPythonState_new 9%nat).
Proof. split; reflexivity. Qed.

End PyWrappersFacts.
